(** * HY-export: OCR extraction, reconciliation, grouping and naming

    A shallow embedding of the pure logic of the photo batch pipeline
    (naming_rules.py, image_grouping.py, main.py, processing_core.py,
    excel_builder.py, report.py) together with the properties stated
    for it.

    Conventions of the embedding.
    - A Python [str] is a [string]; its characters are read as code
      points below 256. On these [lower], [isdigit], [isspace] and the
      classes [\d] and [\s] are Python's; [upper] is Python's except for
      the three characters whose upper-case form lies outside the range
      (U+00B5, U+00DF, U+00FF), which it leaves unchanged; and
      [unicodedata.normalize('NFC', _)] is the identity, no character
      below 256 being a combining mark.
    - A Python [int] is a [Z] (or a [nat] where it is a length).
    - OCR confidence scores are binary64 floats ([float]), with the
      rounding of every sum and quotient. The loop that handles them is
      written once over the operations it uses ([Score]); the exact
      rationals ([Q]) are a second instance, used only where a property
      is stated for exact arithmetic.
    - A raised exception is a value [Raise e] of type [result].
    - The answer a user gives to a yes/no dialog is an explicit boolean
      argument of the function that opens the dialog. *)

From Stdlib Require Import ZArith QArith Ascii String List Lia DecimalString
  Sorted.
From Stdlib Require DecimalPos DecimalZ Uint63.
From Stdlib Require Import PrimFloat.
From stdpp Require Import base option list gmap strings.

(** ** Exceptions *)

Inductive exn : Set :=
| IndexError
| TypeError
| AttributeError
| ValueError.

Inductive result (A : Type) : Type :=
| Ok (a : A)
| Raise (e : exn).
Arguments Ok {A} a.
Arguments Raise {A} e.

#[global] Instance result_ret : MRet result := λ A a, Ok a.
#[global] Instance result_bind : MBind result := λ A B f r,
  match r with
  | Ok a => f a
  | Raise e => Raise e
  end.

(** [l[i]] for a non-negative index. *)
Definition index {A} (l : list A) (i : nat) : result A :=
  match l !! i with
  | Some x => Ok x
  | None => Raise IndexError
  end.

(** ** Characters and strings *)

Module Str.

Definition code (c : ascii) : N := N_of_ascii c.

Definition in_range (lo hi : N) (c : ascii) : bool :=
  ((lo <=? code c) && (code c <=? hi))%N.

Definition is_upper : ascii → bool := in_range 65 90.
Definition is_lower : ascii → bool := in_range 97 122.
Definition is_digit : ascii → bool := in_range 48 57.

(** [str.isspace] on one character (also the class [\s] of [re]):
    TAB..CR, FS..US, SPACE, NEL and NBSP. *)
Definition is_space (c : ascii) : bool :=
  in_range 9 13 c || in_range 28 32 c
  || (code c =? 133)%N || (code c =? 160)%N.

(** The letters with both cases below 256: A-Z and U+00C0..U+00DE
    without the multiplication sign, a-z and U+00E0..U+00FE without the
    division sign. *)
Definition has_lower (c : ascii) : bool :=
  is_upper c || (in_range 192 222 c && negb (code c =? 215)%N).
Definition has_upper (c : ascii) : bool :=
  is_lower c || (in_range 224 254 c && negb (code c =? 247)%N).

Definition char_upper (c : ascii) : ascii :=
  if has_upper c then ascii_of_N (code c - 32) else c.
Definition char_lower (c : ascii) : ascii :=
  if has_lower c then ascii_of_N (code c + 32) else c.

(** [str.isdigit] on one character: 0-9 and the superscripts U+00B2,
    U+00B3, U+00B9, which are digits but not decimal digits. *)
Definition is_digit_char (c : ascii) : bool :=
  is_digit c || (code c =? 178)%N || (code c =? 179)%N || (code c =? 185)%N.

Fixpoint map (f : ascii → ascii) (s : string) : string :=
  match s with
  | EmptyString => EmptyString
  | String c s' => String (f c) (map f s')
  end.

Definition upper : string → string := map char_upper.
Definition lower : string → string := map char_lower.

Fixpoint all (p : ascii → bool) (s : string) : bool :=
  match s with
  | EmptyString => true
  | String c s' => p c && all p s'
  end.

(** The truth value of a string: non-empty. *)
Definition truthy (s : string) : bool :=
  match s with
  | EmptyString => false
  | String _ _ => true
  end.

(** [a or b] on strings. *)
Definition or (a b : string) : string := if truthy a then a else b.

(** [s.split(sep)] for a one-character separator. *)
Fixpoint split (sep : ascii) (s : string) : list string :=
  match s with
  | EmptyString => [EmptyString]
  | String c s' =>
      if Ascii.eqb c sep then EmptyString :: split sep s'
      else match split sep s' with
           | h :: r => String c h :: r
           | [] => [String c EmptyString]
           end
  end.

(** [str(n)] for an integer. *)
Definition of_Z (n : Z) : string := NilZero.string_of_int (Z.to_int n).

End Str.

(** ** Regular expressions of naming_rules.py

    The three patterns are sequences of one-character classes, so a
    match has the length of the pattern and [search] returns the
    leftmost position at which every class accepts its character. *)

Module Re.

Inductive atom : Set :=
| AZ              (* [A-Z] *)
| D               (* \d    *)
| Ch (c : ascii). (* a literal character *)

Definition atom_matches (a : atom) (c : ascii) : bool :=
  match a with
  | AZ => Str.is_upper c
  | D => Str.is_digit c
  | Ch c' => Ascii.eqb c c'
  end.

(** The text matched by the pattern at the start of [t], if any. *)
Fixpoint match_at (p : list atom) (t : string) : option string :=
  match p, t with
  | [], _ => Some EmptyString
  | a :: p', String c t' =>
      if atom_matches a c then String c <$> match_at p' t' else None
  | _ :: _, EmptyString => None
  end.

(** [pattern.search(t)]: group 0 of the leftmost match. *)
Fixpoint search (p : list atom) (t : string) : option string :=
  match match_at p t with
  | Some m => Some m
  | None =>
      match t with
      | EmptyString => None
      | String _ t' => search p t'
      end
  end.

End Re.

(** ** naming_rules.py *)

Definition PATTERN_FULL : list Re.atom :=
  replicate 3 Re.AZ ++ [Re.Ch "-"] ++ replicate 4 Re.D
    ++ [Re.Ch "-"] ++ replicate 4 Re.D.
Definition PATTERN_TAG : list Re.atom :=
  replicate 3 Re.AZ ++ [Re.Ch "-"] ++ replicate 4 Re.D
    ++ [Re.Ch "-"] ++ replicate 5 Re.D.

(** [x or ""] for [x] a string or [None]. *)
Definition or_empty (x : option string) : string := default EmptyString x.

Definition extract_id_lot_tag (text : string)
  : result (string * string * string) :=
  if negb (Str.truthy text) then Ok ("", "", "")
  else
    let t := Str.upper text in
    (* TAG first *)
    '(tag, id_val) ←
      match Re.search PATTERN_TAG t with
      | Some m => i ← index (Str.split "-" m) 1; Ok (Some m, Some i)
      | None => Ok (None, None)
      end;
    (* then LOT *)
    '(lot, id_val) ←
      match Re.search PATTERN_FULL t with
      | Some m =>
          match id_val with
          | None => i ← index (Str.split "-" m) 1; Ok (Some m, Some i)
          | Some _ => Ok (Some m, id_val)
          end
      | None => Ok (None, id_val)
      end;
    Ok (or_empty id_val, or_empty lot, or_empty tag).

(** ** image_grouping.py *)

Module Path.

(** [s.rfind(c)]: the index of the last occurrence of [c]. *)
Fixpoint rfind (c : ascii) (s : string) : option nat :=
  match s with
  | EmptyString => None
  | String x s' =>
      match rfind c s' with
      | Some i => Some (S i)
      | None => if Ascii.eqb x c then Some 0 else None
      end
  end.

Fixpoint drop (n : nat) (s : string) : string :=
  match n, s with
  | S n', String _ s' => drop n' s'
  | _, _ => s
  end.

(** [PurePath.suffix] of a file name: the text from the last dot on,
    unless that dot is the first or the last character. *)
Definition suffix (name : string) : string :=
  match rfind "." name with
  | Some i =>
      if (0 <? i) && (i <? String.length name - 1) then drop i name
      else EmptyString
  | None => EmptyString
  end.

End Path.

Definition IMG_EXTS : list string :=
  [".jpg"; ".jpeg"; ".png"; ".bmp"; ".tif"; ".tiff"; ".webp"].

(** A component of a sort key: [int(s)] or [s.lower()]. *)
Inductive tok : Set :=
| TInt (n : N)
| TStr (s : string).

(** [re.split(r'(\d+)', s)]: the text runs and the digit runs of [s],
    alternating, the first and the last being text runs (possibly
    empty). [in_text] scans inside a text run, [in_digits] inside a
    digit run; the head of the result is the run being scanned. *)
Definition push (c : ascii) (runs : list string) : list string :=
  match runs with
  | h :: r => String c h :: r
  | [] => [String c EmptyString]
  end.

Fixpoint in_text (s : string) : list string :=
  match s with
  | EmptyString => [EmptyString]
  | String c s' =>
      if Str.is_digit c then EmptyString :: push c (in_digits s')
      else push c (in_text s')
  end
with in_digits (s : string) : list string :=
  match s with
  | EmptyString => [EmptyString; EmptyString]
  | String c s' =>
      if Str.is_digit c then push c (in_digits s')
      else EmptyString :: push c (in_text s')
  end.

Definition re_split_digits (s : string) : list string := in_text s.

(** [s.isdigit()] *)
Definition isdigit (s : string) : bool :=
  Str.truthy s && Str.all Str.is_digit_char s.

(** [int(s)] for a string [s] with [s.isdigit()]: the value of the
    decimal digits; a superscript digit is not a decimal digit and
    raises [ValueError]. *)
Fixpoint int_from (acc : N) (s : string) : N :=
  match s with
  | EmptyString => acc
  | String c s' => int_from (10 * acc + (Str.code c - 48)) s'
  end.
Definition int_of (s : string) : result N :=
  if Str.truthy s && Str.all Str.is_digit s then Ok (int_from 0 s)
  else Raise ValueError.

Definition _natural_sort_key (s : string) : result (list tok) :=
  mapM (λ s, if isdigit s then n ← int_of s; Ok (TInt n)
             else Ok (TStr (Str.lower s)))
    (re_split_digits s).

(** Comparison of key components: [==] is false and [<] raises
    [TypeError] between an [int] and a [str]. *)
Definition tok_eqb (x y : tok) : bool :=
  match x, y with
  | TInt m, TInt n => (m =? n)%N
  | TStr s, TStr t => String.eqb s t
  | _, _ => false
  end.

Definition tok_lt (x y : tok) : result bool :=
  match x, y with
  | TInt m, TInt n => Ok (m <? n)%N
  | TStr s, TStr t => Ok (String.ltb s t)
  | _, _ => Raise TypeError
  end.

(** [a < b] on lists: decided at the first position where they differ,
    a proper prefix being smaller. *)
Fixpoint key_lt (a b : list tok) : result bool :=
  match a, b with
  | [], [] => Ok false
  | [], _ :: _ => Ok true
  | _ :: _, [] => Ok false
  | x :: a', y :: b' => if tok_eqb x y then key_lt a' b' else tok_lt x y
  end.

(** [list.sort(key=...)]: the key of every element is computed first, in
    the order of the list, so the first key that raises ends the call;
    the elements are then sorted with their keys by a stable sort that
    only uses [<] on keys. *)
Section Sort.
Context {A : Type}.

Fixpoint insert_sorted (x : list tok * A) (l : list (list tok * A))
  : result (list (list tok * A)) :=
  match l with
  | [] => Ok [x]
  | y :: l' =>
      b ← key_lt y.1 x.1;
      if b : bool then r ← insert_sorted x l'; Ok (y :: r)
      else Ok (x :: l)
  end.

Fixpoint sort_keyed (l : list (list tok * A)) : result (list (list tok * A)) :=
  match l with
  | [] => Ok []
  | x :: l' => s ← sort_keyed l'; insert_sorted x s
  end.

Definition sort (key : A → result (list tok)) (l : list A) : result (list A) :=
  keyed ← mapM (λ x, k ← key x; Ok (k, x)) l;
  s ← sort_keyed keyed;
  Ok (s.*2).
End Sort.

(** [list_images]: [entries] are the names of the regular files of the
    folder, in the order [iterdir] yields them. *)
Definition is_image (name : string) : bool :=
  existsb (String.eqb (Str.lower (Path.suffix name))) IMG_EXTS.

Definition list_images (entries : list string) : result (list string) :=
  sort _natural_sort_key (List.filter is_image entries).

(** [ans] is the user's answer to the yes/no dialog shown when the
    count is off the recommended one. *)
Definition _check_count_and_confirm (total : nat) (pack_mode : string)
    (ans : bool) : bool :=
  if String.eqb pack_mode "1PACK" then
    if negb (total mod 2 =? 0) then false
    else if negb (total =? 40) && negb ans then false
    else true
  else if String.eqb pack_mode "2PACK" then
    if negb (total mod 3 =? 0) then false
    else if negb (total =? 60) && negb ans then false
    else true
  else false.

(** [range(0, stop, step)] for a positive step. *)
Definition range_step (stop step : nat) : list nat :=
  (λ k, k * step) <$> seq 0 ((stop + step - 1) / step).

(** [l[i:j]] *)
Definition slice {A} (l : list A) (i j : nat) : list A :=
  take (j - i) (drop i l).

Definition group_images (entries : list string) (pack_mode : string)
    (ans : bool) : result (list (list string)) :=
  files ← list_images entries;
  let total := length files in
  if total =? 0 then Ok []
  else if negb (_check_count_and_confirm total pack_mode ans) then Ok []
  else
    let step := if String.eqb pack_mode "1PACK" then 2 else 3 in
    Ok (foldl
          (λ groups i,
             let group := slice files i (i + step) in
             if length group =? step then groups ++ [group] else groups)
          [] (range_step total step)).

(** ** main.py: the reconciliation of one image set *)

(** A row of the lookup table loaded by [_load_s1_data]: every entry of
    [s1_lookup_data] is a dict with these four string values, so the
    truth value of [s1_lookup_data.get(sn, {})] is the presence of the
    key. *)
Record S1Row : Set := {
  ID1 : string;
  Lot1 : string;
  Tag1 : string;
  Tag2 : string
}.

(** The local variables of one iteration of the loop of [_worker_s2]. *)
Record locals : Set := {
  id_val : string;
  lot : string;
  tag1 : string;
  tag2 : string;
  needs_inspection : bool
}.

(** What one iteration leaves behind: the final locals, the aggregated
    score and the text of the inspection column. *)
Record outcome (F : Type) : Type := {
  final : locals;
  current_avg_score : F;
  inspection_flag : string
}.
Arguments Build_outcome {F} _ _ _.
Arguments final {F} _.
Arguments current_avg_score {F} _.
Arguments inspection_flag {F} _.

(** The arithmetic of the loop on confidence scores: the constant [0.0],
    [x + y], [x / n] for a length [n] and [x < y]. *)
Class Score (F : Type) : Type := {
  score_zero : F;
  score_add : F → F → F;
  score_div : F → nat → F;
  score_lt : F → F → bool
}.

(** Python's floats: binary64, every operation rounded to nearest; the
    length (below 2^53, so converted exactly) becomes a float before the
    division. *)
Definition float_of_len (n : nat) : float :=
  PrimFloat.of_uint63 (Uint63.of_Z (Z.of_nat n)).

#[global] Instance float_score : Score float := {|
  score_zero := PrimFloat.zero;
  score_add := PrimFloat.add;
  score_div x n := PrimFloat.div x (float_of_len n);
  score_lt := PrimFloat.ltb
|}.

(** Exact arithmetic on rationals. *)
Definition Qlt_bool (x y : Q) : bool := negb (Qle_bool y x).

Definition Qsum (l : list Q) : Q := foldl Qplus 0%Q l.

#[global] Instance Q_score : Score Q := {|
  score_zero := 0%Q;
  score_add := Qplus;
  score_div x n := (x / inject_Z (Z.of_nat n))%Q;
  score_lt := Qlt_bool
|}.

(** [sum(scores)]: the additions from left to right, starting from 0,
    each one rounded (the loop of CPython's [sum] up to 3.11, the
    interpreters of the OCR engine the program loads). *)
Definition score_sum {F} `{Score F} (scores : list F) : F :=
  foldl score_add score_zero scores.

(** [_rename_images]: the new names of the images of set [sn], from the
    fields of its row; [tag2] is read from the row in 2PACK mode only and
    is [None] otherwise. *)
Definition new_names (pack_mode : string) (img_paths : list string) (sn : Z)
    (st : locals) : result (list string) :=
  let tag2 := if String.eqb pack_mode "2PACK" then tag2 st else "None" in
  let sn_prefix := Str.of_Z sn +:+ ". " +:+ id_val st +:+ "-" +:+ lot st in
  if String.eqb pack_mode "1PACK" then
    p0 ← index img_paths 0;
    p1 ← index img_paths 1;
    Ok [ sn_prefix +:+ " (" +:+ tag1 st +:+ ")" +:+ Path.suffix p0;
         sn_prefix +:+ " (" +:+ tag1 st +:+ ")-1" +:+ Path.suffix p1 ]
  else
    p0 ← index img_paths 0;
    p1 ← index img_paths 1;
    p2 ← index img_paths 2;
    Ok [ sn_prefix +:+ " (" +:+ tag1 st +:+ ")" +:+ Path.suffix p0;
         sn_prefix +:+ " (" +:+ tag2 +:+ ")" +:+ Path.suffix p1;
         sn_prefix +:+ " (" +:+ tag1 st +:+ ", " +:+ tag2 +:+ ")"
           +:+ Path.suffix p2 ].

(** ** main.py: renaming the images of a set *)

Section Rename.
Context {B : Type}.

(** One step of the loop of [_rename_images] on the files of the folder,
    a map from names to contents: an existing target is removed, then
    the source is renamed; when the source does not exist [os.rename]
    raises, which is logged and changes nothing more. *)
Definition rename_one (fs : gmap string B) (old new : string)
  : gmap string B :=
  let fs := if bool_decide (is_Some (fs !! new)) then delete new fs else fs in
  match fs !! old with
  | Some content => <[new := content]> (delete old fs)
  | None => fs
  end.

(** [for old, new in zip(img_paths, new_names)] *)
Definition rename_all (fs : gmap string B) (img_paths new_names : list string)
  : gmap string B :=
  foldl (λ fs '(old, new), rename_one fs old new) fs (zip img_paths new_names).

Definition _rename_images (fs : gmap string B) (img_paths : list string)
    (sn : Z) (pack_mode : string) (row : locals) : result (gmap string B) :=
  names ← new_names pack_mode img_paths sn row;
  Ok (rename_all fs img_paths names).

End Rename.

(** ** main.py: the loop of [_worker_s2] *)

Section Worker.
Context {F : Type} `{Score F} {B : Type}.
Variable ocr_extract_from_image : string → string * F.
Variable OCR_MIN_SCORE : F.
Variable s1_lookup_data : gmap Z S1Row.
Variable pack_mode : string.

(** A. the OCR pass over the images of the set *)
Definition ocr_pass (image_set : list string) : list string * list F :=
  foldl
    (λ '(final_ocr_texts, scores) img,
       let '(txt, score) := ocr_extract_from_image img in
       (final_ocr_texts ++ [txt],
        if score_lt score_zero score then scores ++ [score] else scores))
    ([], []) image_set.

(** B. extraction from the first (and, for 2PACK, second) text *)
Definition extract_fields (final_ocr_texts : list string)
  : result (string * string * string * string) :=
  txt1 ← index final_ocr_texts 0;
  '(id_val, lot, tag1) ← extract_id_lot_tag txt1;
  tag2 ←
    (if String.eqb pack_mode "2PACK" && (1 <? length final_ocr_texts)
     then txt2 ← index final_ocr_texts 1;
          '(_, _, tag2_ocr) ← extract_id_lot_tag txt2;
          Ok tag2_ocr
     else Ok EmptyString);
  Ok (id_val, lot, tag1, tag2).

(** [sum(scores) / len(scores) if scores else 0.0] *)
Definition average (scores : list F) : F :=
  match scores with
  | [] => score_zero
  | _ :: _ => score_div (score_sum scores) (length scores)
  end.

(** 1. the conditions that ask for an inspection *)
Definition check_inspection (avg : F) (lot tag1 : string) : bool :=
  let needs_inspection := false in
  let needs_inspection :=
    if score_lt avg OCR_MIN_SCORE then true else needs_inspection in
  if negb (Str.truthy lot) || negb (Str.truthy tag1) then true
  else needs_inspection.

(** 2. the backup from the lookup row *)
Definition apply_backup (s1_data : option S1Row) (st : locals) : locals :=
  match s1_data with
  | Some row =>
      if negb (Str.truthy (lot st)) || negb (Str.truthy (tag1 st)) then
        {| id_val := Str.or (id_val st) (ID1 row);
           lot := Str.or (lot st) (Lot1 row);
           tag1 := Str.or (tag1 st) (Tag1 row);
           tag2 := if String.eqb pack_mode "2PACK"
                   then Str.or (tag2 st) (Tag2 row) else tag2 st;
           needs_inspection := needs_inspection st |}
      else st
  | None => st
  end.

(** 3. the final check of the two fields *)
Definition final_check (st : locals) : locals :=
  let st :=
    if negb (Str.truthy (lot st)) then
      {| id_val := id_val st; lot := "NO_LOT"; tag1 := tag1 st;
         tag2 := tag2 st; needs_inspection := true |}
    else st in
  if negb (Str.truthy (tag1 st)) then
    {| id_val := id_val st; lot := lot st; tag1 := "NO_TAG";
       tag2 := tag2 st; needs_inspection := true |}
  else st.

(** The body of the loop up to the row written into the table. *)
Definition worker_set (sn : Z) (image_set : list string)
  : result (outcome F) :=
  let '(final_ocr_texts, scores) := ocr_pass image_set in
  '(id_val, lot, tag1, tag2) ← extract_fields final_ocr_texts;
  let s1_data := s1_lookup_data !! sn in
  let current_avg_score := average scores in
  let st :=
    {| id_val := id_val; lot := lot; tag1 := tag1; tag2 := tag2;
       needs_inspection := check_inspection current_avg_score lot tag1 |} in
  let st := final_check (apply_backup s1_data st) in
  Ok {| final := st;
        current_avg_score := current_avg_score;
        inspection_flag :=
          if needs_inspection st then "확인 요함" else EmptyString |}.

(** [for idx, image_set in enumerate(groups, start=1)]: each turn writes
    the row of the set and renames its images in the folder [fs]; an
    exception ends the loop. [ocr_extract_from_image img] is what the
    engine reads from [img] in the turn of its set. *)
Fixpoint worker_loop (sn : Z) (groups : list (list string))
    (fs : gmap string B) : result (list (outcome F) * gmap string B) :=
  match groups with
  | [] => Ok ([], fs)
  | image_set :: rest =>
      o ← worker_set sn image_set;
      fs ← _rename_images fs image_set sn pack_mode (final o);
      '(os, fs) ← worker_loop (sn + 1) rest fs;
      Ok (o :: os, fs)
  end.

Definition _worker_s2_rows (groups : list (list string)) (fs : gmap string B)
  : result (list (outcome F) * gmap string B) :=
  worker_loop 1 groups fs.
End Worker.

(** ** processing_core.py *)

Module Chars.
(** Strings as lists of characters, for the operations that work from
    both ends. *)

Fixpoint lstrip (p : ascii → bool) (l : list ascii) : list ascii :=
  match l with
  | c :: l' => if p c then lstrip p l' else l
  | [] => []
  end.

Definition rstrip (p : ascii → bool) (l : list ascii) : list ascii :=
  rev (lstrip p (rev l)).

(** [s.strip()] and [s.strip(chars)], by the set of stripped characters. *)
Definition strip (p : ascii → bool) (l : list ascii) : list ascii :=
  rstrip p (lstrip p l).

(** [re.sub(r"\s+", " ", s)]: each maximal run of whitespace becomes one
    space (written when the last character of the run is read). *)
Fixpoint collapse_spaces (l : list ascii) : list ascii :=
  match l with
  | [] => []
  | c :: l' =>
      if Str.is_space c then
        match l' with
        | c' :: _ =>
            if Str.is_space c' then collapse_spaces l'
            else " "%char :: collapse_spaces l'
        | [] => [" "%char]
        end
      else c :: collapse_spaces l'
  end.
End Chars.

(** [FORBIDDEN_CHARS]: the characters < > : (double quote) / \ \ | ? *
    of the raw string literal, which holds the backslash twice. *)
Definition FORBIDDEN_CHARS : list ascii :=
  list_ascii_of_string "<>:" ++ [ascii_of_N 34]
    ++ list_ascii_of_string "/\\|?*".

Definition forbidden (c : ascii) : bool :=
  existsb (Ascii.eqb c) FORBIDDEN_CHARS.

(** [unicodedata.normalize('NFC', s)]: the canonical composition joins
    a letter with the combining marks that follow it; a text of code
    points below 256 holds no combining mark and every such character is
    its own composed form, so the text is returned as it is. *)
Definition normalize_NFC (s : list ascii) : list ascii := s.

Definition sanitize_chars (name : list ascii) : list ascii :=
  let s := Chars.strip Str.is_space (normalize_NFC name) in
  let s := List.filter (λ c, negb (Ascii.eqb c " ")) s in
  let s := List.map (λ c, if forbidden c then "_"%char else c) s in
  let s :=
    Chars.strip (λ c, Ascii.eqb c " " || Ascii.eqb c ".")
      (Chars.collapse_spaces s) in
  take 180 s.

Definition sanitize (name : string) : string :=
  string_of_list_ascii (sanitize_chars (list_ascii_of_string name)).

(** The two names [process_step2] gives the images of a row when
    [pair == 2]. *)
Definition process_step2_names_pair2 (SN ID1 Lot1 Tag1 : string)
    (src1 src2 : string) : list string :=
  let base1 := SN +:+ ". " +:+ ID1 +:+ "-" +:+ Lot1 +:+ " (" +:+ Tag1 +:+ ")" in
  let new_name1 := sanitize base1 +:+ Path.suffix src1 in
  let base2 :=
    SN +:+ ". " +:+ ID1 +:+ "-" +:+ Lot1 +:+ " (" +:+ Tag1 +:+ ") - 1" in
  let new_name2 := sanitize base2 +:+ Path.suffix src2 in
  [new_name1; new_name2].

(** ** excel_builder.py *)

Inductive cell : Set :=
| NaN
| CInt (n : Z)
| CStr (s : string).

(** A data frame: its columns in order, each with its values. *)
Definition DataFrame : Set := list (string * list cell).

Definition df_columns (df : DataFrame) : list string := fst <$> df.

(** [df[col]] *)
Fixpoint df_col (df : DataFrame) (col : string) : option (list cell) :=
  match df with
  | [] => None
  | (c, v) :: df' => if String.eqb c col then Some v else df_col df' col
  end.

(** [df[col] = v] for a column that exists. *)
Fixpoint df_set_col (df : DataFrame) (col : string) (v : list cell)
  : DataFrame :=
  match df with
  | [] => []
  | (c, w) :: df' =>
      if String.eqb c col then (c, v) :: df' else (c, w) :: df_set_col df' col v
  end.

(** [len(df)] *)
Definition df_len (df : DataFrame) : nat :=
  match df with
  | [] => 0
  | (_, v) :: _ => length v
  end.

Definition S2_COLUMNS : list string :=
  [ "순번"; "컨테이너 No"; "품명"; "Ton Bag No1"; "Lot No1"; "Ton Bag No2";
    "Lot No2"; "ID1"; "Lot1"; "Tag1"; "ID2"; "Lot2"; "Tag2"; "검수 필요" ].

Definition STRING_COLUMNS : list string :=
  [ "컨테이너 No"; "품명"; "Ton Bag No1"; "Lot No1"; "Ton Bag No2"; "Lot No2";
    "ID1"; "Lot1"; "Tag1"; "ID2"; "Lot2"; "Tag2"; "검수 필요" ].

(** [str(v)] of a cell. *)
Definition cell_str (v : cell) : string :=
  match v with
  | NaN => "nan"
  | CInt n => Str.of_Z n
  | CStr s => s
  end.

(** [series.astype(str).fillna("")] *)
Definition fillna (d : string) (v : cell) : cell :=
  match v with
  | NaN => CStr d
  | _ => v
  end.

Definition astype_str (col : list cell) : list cell :=
  (λ v, fillna "" (CStr (cell_str v))) <$> col.

(** [pd.DataFrame(data, columns=columns)] *)
Definition pd_DataFrame (n : nat) (data : gmap string (list cell))
    (columns : list string) : DataFrame :=
  (λ col, (col, default (replicate n NaN) (data !! col))) <$> columns.

Definition create_excel_template (num_sets : Z) (container_name : option string)
  : DataFrame :=
  let num_sets := if (num_sets <=? 0)%Z then 1%Z else num_sets in
  let n := Z.to_nat num_sets in
  let data : gmap string (list cell) :=
    list_to_map ((λ col, (col, replicate n (CStr ""))) <$> S2_COLUMNS) in
  let data := <["순번" := CInt <$> seqZ 1 num_sets]> data in
  let container_name := default EmptyString container_name in
  let data := <["컨테이너 No" := replicate n (CStr container_name)]> data in
  let df := pd_DataFrame n data S2_COLUMNS in
  foldl
    (λ df col,
       match df_col df col with
       | Some v => df_set_col df col (astype_str v)
       | None => df
       end)
    df STRING_COLUMNS.

(** ** report.py *)

Definition isna (v : cell) : bool :=
  match v with
  | NaN => true
  | _ => false
  end.

(** [v == ""] *)
Definition is_empty_str (v : cell) : bool :=
  match v with
  | CStr s => String.eqb s ""
  | _ => false
  end.

(** [df[col].isna() | (df[col] == "")] *)
Definition missing_mask (col : list cell) : list bool :=
  (λ v, isna v || is_empty_str v) <$> col.

(** [int(series)]: pandas converts a series of one element and raises
    [TypeError] for any other length. *)
Definition series_int (mask : list bool) : result Z :=
  match mask with
  | [b] => Ok (if b then 1 else 0)%Z
  | _ => Raise TypeError
  end.

(** [n.sum()] for [n] an [int]: the attribute does not exist. *)
Definition int_sum (n : Z) : result Z := Raise AttributeError.

(** [int(mask).sum()], as the source parenthesises it. *)
Definition count_missing (col : list cell) : result Z :=
  n ← series_int (missing_mask col);
  int_sum n.

Definition count_into (df : DataFrame) (col : string) (enabled : bool)
    (missing : gmap string Z) : result (gmap string Z) :=
  match df_col df col with
  | Some v =>
      if enabled then n ← count_missing v; Ok (<[col := n]> missing)
      else Ok missing
  | None => Ok missing
  end.

Definition _count_missing_fields (df : DataFrame) (pack_mode : string)
  : result (gmap string Z) :=
  let missing : gmap string Z :=
    {[ "ID1" := 0%Z; "Lot1" := 0%Z; "Tag1" := 0%Z; "Tag2" := 0%Z ]} in
  missing ← count_into df "ID1" true missing;
  missing ← count_into df "Lot1" true missing;
  missing ← count_into df "Tag1" true missing;
  missing ← count_into df "Tag2" (String.eqb pack_mode "2PACK") missing;
  Ok missing.

(** [str(val).strip() == ""] *)
Definition blank (v : cell) : bool :=
  match Chars.strip Str.is_space (list_ascii_of_string (cell_str v)) with
  | [] => true
  | _ :: _ => false
  end.

(** The value of column [col] in row [idx]. *)
Definition df_at (df : DataFrame) (col : string) (idx : nat) : option cell :=
  v ← df_col df col; v !! idx.

Definition _collect_sn_with_missing (df : DataFrame) (pack_mode : string)
  : list cell :=
  let required_cols :=
    ["ID1"; "Lot1"; "Tag1"]
      ++ (if String.eqb pack_mode "2PACK" then ["Tag2"] else []) in
  foldl
    (λ sn_list idx,
       let sn := default (CInt (Z.of_nat idx + 1)) (df_at df "순번" idx) in
       let missing_flag :=
         existsb
           (λ col,
              match df_at df col idx with
              | Some val => isna val || blank val
              | None => false
              end)
           required_cols in
       if missing_flag then sn_list ++ [sn] else sn_list)
    [] (seq 0 (df_len df)).

(** [series.dropna().unique()] *)
#[global] Instance cell_eq_dec : EqDecision cell.
Proof. solve_decision. Defined.

Fixpoint unique (l : list cell) : list cell :=
  match l with
  | [] => []
  | v :: l' => v :: List.filter (λ w, negb (bool_decide (w = v))) (unique l')
  end.

Definition dropna (l : list cell) : list cell :=
  List.filter (λ v, negb (isna v)) l.

(** The values the report text is written from. *)
Record report : Type := {
  r_folder : string;
  r_container_name : string;
  r_pack_desc : string;
  r_num_sets : nat;
  r_expected_images : Z;
  r_image_count : Z;
  (** the line of the difference, written only when the counts differ *)
  r_diff : option Z;
  r_missing : gmap string Z;
  r_sn_with_missing : list cell;
  r_excel_info : string
}.

Definition generate_report (df : DataFrame) (folder : string)
    (pack_mode : string) (image_count : Z) (excel_path : option string)
  : result report :=
  let num_sets := df_len df in
  let '(expected_images, pack_desc) :=
    if String.eqb pack_mode "1PACK"
    then ((Z.of_nat num_sets * 2)%Z, "1PACK (2샷/세트)")
    else ((Z.of_nat num_sets * 3)%Z, "2PACK (3샷/세트)") in
  missing ← _count_missing_fields df pack_mode;
  let sn_with_missing := _collect_sn_with_missing df pack_mode in
  let container_name :=
    match df_col df "컨테이너 No" with
    | Some v =>
        match unique (dropna v) with
        | [] => EmptyString
        | [c] => cell_str c
        | c :: rest =>
            cell_str c +:+ " 외 " +:+ Str.of_Z (Z.of_nat (length rest))
              +:+ "개"
        end
    | None => EmptyString
    end in
  let excel_info := default "(미저장 또는 경로 미지정)" excel_path in
  let diff := (image_count - expected_images)%Z in
  Ok {| r_folder := folder;
        r_container_name := container_name;
        r_pack_desc := pack_desc;
        r_num_sets := num_sets;
        r_expected_images := expected_images;
        r_image_count := image_count;
        r_diff := if (diff =? 0)%Z then None else Some diff;
        r_missing := missing;
        r_sn_with_missing := sn_with_missing;
        r_excel_info := excel_info |}.

(** * Further code of the repository *)

(** ** Outcomes of code that loops until a condition holds

    [Done] is a returned value, [Fail] a raised exception, [OutOfFuel]
    the end of the fuel given to a [while True] loop. *)

Inductive run (A : Type) : Type :=
| Done (a : A)
| Fail (e : exn)
| OutOfFuel.
Arguments Done {A} a.
Arguments Fail {A} e.
Arguments OutOfFuel {A}.

#[global] Instance run_ret : MRet run := λ A a, Done a.
#[global] Instance run_bind : MBind run := λ A B f r,
  match r with
  | Done a => f a
  | Fail e => Fail e
  | OutOfFuel => OutOfFuel
  end.

Definition lift {A} (r : result A) : run A :=
  match r with
  | Ok a => Done a
  | Raise e => Fail e
  end.

Module Text.

Fixpoint filter (p : ascii → bool) (s : string) : string :=
  match s with
  | EmptyString => EmptyString
  | String c s' => if p c then String c (filter p s') else filter p s'
  end.

(** [s[:n]] *)
Fixpoint take (n : nat) (s : string) : string :=
  match n, s with
  | S n', String c s' => String c (take n' s')
  | _, _ => EmptyString
  end.

(** [s.strip()] *)
Definition strip (s : string) : string :=
  string_of_list_ascii (Chars.strip Str.is_space (list_ascii_of_string s)).

End Text.

(** ** naming_rules.py: names from the OCR texts *)

(** [ocr_texts[i] if len(ocr_texts) > i else ""] *)
Definition text_at (ocr_texts : list string) (i : nat) : result string :=
  if i <? length ocr_texts then index ocr_texts i else Ok EmptyString.

Definition generate_names_1pack (ocr_texts : list string)
  : result (string * string * string * string * string) :=
  txt1 ← text_at ocr_texts 0;
  '(id_val, lot, tag) ← extract_id_lot_tag txt1;
  let base := id_val +:+ "-" +:+ lot +:+ " (" +:+ tag +:+ ")" in
  let name1 := base +:+ ".jpg" in
  let name2 := base +:+ "-1.jpg" in
  Ok (name1, name2, id_val, lot, tag).

Definition generate_names_2pack (ocr_texts : list string)
  : result (string * string * string * string * string * string * string) :=
  txt1 ← text_at ocr_texts 0;
  txt2 ← text_at ocr_texts 1;
  '(id1, lot1, tag1) ← extract_id_lot_tag txt1;
  '(id2, lot2, tag2) ← extract_id_lot_tag txt2;
  let id_val := Str.or id1 id2 in
  let lot_val := Str.or lot1 lot2 in
  let name1 := id_val +:+ "-" +:+ lot_val +:+ " (" +:+ tag1 +:+ ").jpg" in
  let name2 := id_val +:+ "-" +:+ lot_val +:+ " (" +:+ tag2 +:+ ").jpg" in
  let name3 :=
    id_val +:+ "-" +:+ lot_val +:+ " (" +:+ tag1 +:+ ", " +:+ tag2
      +:+ ").jpg" in
  Ok (name1, name2, name3, id_val, lot_val, tag1, tag2).

(** ** utils.py *)

(** The characters [normalize_code] keeps: A-Z, 0-9 and the dash. *)
Definition code_char (c : ascii) : bool :=
  Str.is_upper c || Str.is_digit c || Ascii.eqb c "-".

Definition normalize_code (text : string) : string :=
  if negb (Str.truthy text) then EmptyString
  else
    let t := Str.upper text in
    let t := Text.filter (λ c, negb (Ascii.eqb c " ")) t in
    let t := Str.map (λ c, if Ascii.eqb c "_" then "-"%char else c) t in
    Text.filter code_char t.

(** ** processing_core.py: reading cells and copying under free names *)

(** [_nz]: [x] is the value of a worksheet cell, [None] for an empty
    cell. *)
Definition _nz (x : option cell) (default : string) : string :=
  let x :=
    match x with
    | None => EmptyString
    | Some v => cell_str v
    end in
  let x := Text.strip x in
  if String.eqb (Str.lower x) "nan" || negb (Str.truthy x) then default
  else x.

(** [PurePath.stem] of a file name: the name without its suffix. *)
Definition stem (name : string) : string :=
  match Path.rfind "." name with
  | Some i =>
      if (0 <? i) && (i <? String.length name - 1) then Text.take i name
      else name
  | None => name
  end.

(** The candidate [f"{b}_{i}{e}"] of [ensure_unique]. *)
Definition candidate (b e : string) (i : nat) : string :=
  b +:+ "_" +:+ Str.of_Z (Z.of_nat i) +:+ e.

(** The [while True] loop of [ensure_unique], from counter [i]: [names]
    are the names that exist in the directory of [dst]. *)
Fixpoint first_free (names : gset string) (b e : string) (i fuel : nat)
  : run string :=
  match fuel with
  | O => OutOfFuel
  | S fuel' =>
      let c := candidate b e i in
      if bool_decide (c ∈ names) then first_free names b e (i + 1) fuel'
      else Done c
  end.

Definition ensure_unique (names : gset string) (dst : string) (fuel : nat)
  : run string :=
  if bool_decide (dst ∈ names) then
    first_free names (stem dst) (Path.suffix dst) 1 fuel
  else Done dst.

Definition IMG_WHITELIST : list string :=
  [".jpg"; ".jpeg"; ".png"; ".bmp"; ".gif"; ".tif"; ".tiff"].

(** [list_images] of processing_core.py: [entries] are the names of the
    regular files of the folder, [None] when it is not a directory. *)
Definition core_list_images (entries : option (list string))
  : result (list string) :=
  match entries with
  | None => Ok []
  | Some es =>
      sort _natural_sort_key
        (List.filter
           (λ name,
              existsb (String.eqb (Str.lower (Path.suffix name)))
                IMG_WHITELIST)
           es)
  end.

(** A worksheet: its rows from row 1 on, each with the values of its
    cells from column 1 on; [ws.max_row] is the number of rows. *)
Definition sheet : Set := list (list (option cell)).

(** [ws.cell(row=r, column=c).value] *)
Definition cell_value (ws : sheet) (r c : nat) : option cell :=
  row ← ws !! (r - 1); mjoin (row !! (c - 1)).

(** The state of a copy loop: the position in [files], the count of
    copies, the names present in the output folder and the copies made,
    as (source name, destination name). *)
Record copy_state : Type := {
  idx : nat;
  processed_count : nat;
  out_dir : gset string;
  copies : list (string * string)
}.

(** [src = folder / files[idx].name; idx += 1; processed_count += 1;
    new_name = sanitize(base) + src.suffix;
    dst = ensure_unique(out_dir / new_name); safe_copy(src, dst)] *)
Definition copy_next (files : list string) (fuel : nat) (base : string)
    (st : copy_state) : run copy_state :=
  src ← lift (index files (idx st));
  let new_name := sanitize base +:+ Path.suffix src in
  dst ← ensure_unique (out_dir st) new_name fuel;
  Done {| idx := idx st + 1;
          processed_count := processed_count st + 1;
          out_dir := {[dst]} ∪ out_dir st;
          copies := copies st ++ [(src, dst)] |}.

Definition COL_SN : nat := 1.
Definition COL_ID1 : nat := 8.
Definition COL_LOT1 : nat := 9.
Definition COL_TAG1 : nat := 10.
Definition COL_TAG2 : nat := 13.

(** The rows [process_step1] keeps. *)
Definition step1_rows (ws : sheet) : list (string * string * string * string) :=
  foldl
    (λ excel_data r,
       let sn := _nz (cell_value ws r COL_SN) "NO_SN" in
       let id_val := _nz (cell_value ws r COL_ID1) "NO_ID" in
       let lot := _nz (cell_value ws r COL_LOT1) "NO_LOT" in
       let tag := _nz (cell_value ws r COL_TAG1) "NO_TAG" in
       if negb (String.eqb sn "NO_SN") && negb (String.eqb lot "NO_LOT")
          && negb (String.eqb tag "NO_TAG")
       then excel_data ++ [(sn, id_val, lot, tag)]
       else excel_data)
    [] (seq 2 (length ws - 1)).

(** [for i in range(n)] of [process_step1], over the rows in order. *)
Fixpoint step1_loop (files : list string) (fuel : nat)
    (rows : list (string * string * string * string)) (st : copy_state)
  : run copy_state :=
  match rows with
  | [] => Done st
  | (sn, id_val, lot, tag) :: rows' =>
      let base_name :=
        sn +:+ ". " +:+ id_val +:+ "-" +:+ lot +:+ " (" +:+ tag +:+ ")" in
      st ← copy_next files fuel base_name st;
      step1_loop files fuel rows' st
  end.

(** [process_step1]: [entries] is the listing of the source folder,
    [wb] the worksheet ([None] when the workbook cannot be loaded),
    [out_dir0] the names present in the output folder; the result is
    the pair of counts and the copies made. *)
Definition process_step1 (entries : option (list string)) (wb : option sheet)
    (out_dir0 : gset string) (fuel : nat)
  : run (nat * nat * list (string * string)) :=
  files ← lift (core_list_images entries);
  match wb with
  | None => Done (0, length files, [])
  | Some ws =>
      let excel_data := step1_rows ws in
      let n := length files `min` length excel_data in
      st ← step1_loop files fuel (take n excel_data)
             {| idx := 0; processed_count := 0; out_dir := out_dir0;
                copies := [] |};
      Done (processed_count st, length files - processed_count st, copies st)
  end.

(** The rows [process_step2] keeps. *)
Definition step2_rows (ws : sheet)
  : list (string * string * string * string * string) :=
  foldl
    (λ rows_data r,
       let row :=
         (_nz (cell_value ws r COL_SN) "NO_SN",
          _nz (cell_value ws r COL_ID1) "",
          _nz (cell_value ws r COL_LOT1) "",
          _nz (cell_value ws r COL_TAG1) "",
          _nz (cell_value ws r COL_TAG2) "") in
       let '(sn, _, lot, tag1, _) := row in
       if negb (String.eqb sn "NO_SN") && Str.truthy lot && Str.truthy tag1
       then rows_data ++ [row]
       else rows_data)
    [] (seq 2 (length ws - 1)).

(** [for row_tuple in rows_data] of [process_step2]; the [break] ends
    the loop. *)
Fixpoint step2_loop (files : list string) (fuel pair : nat)
    (rows : list (string * string * string * string * string))
    (st : copy_state) : run copy_state :=
  match rows with
  | [] => Done st
  | (SN, ID1, Lot1, Tag1, Tag2) :: rows' =>
      if length files <? idx st + pair then Done st
      else
        let prefix := SN +:+ ". " +:+ ID1 +:+ "-" +:+ Lot1 in
        st ←
          (if pair =? 2 then
             st ← copy_next files fuel (prefix +:+ " (" +:+ Tag1 +:+ ")") st;
             copy_next files fuel (prefix +:+ " (" +:+ Tag1 +:+ ") - 1") st
           else if pair =? 3 then
             st ← copy_next files fuel (prefix +:+ " (" +:+ Tag1 +:+ ")") st;
             st ← copy_next files fuel (prefix +:+ " (" +:+ Tag2 +:+ ")") st;
             copy_next files fuel
               (prefix +:+ " (" +:+ Tag1 +:+ ", " +:+ Tag2 +:+ ")") st
           else Done st);
        step2_loop files fuel pair rows' st
  end.

(** [process_step2]: [pair] is the value of [int(pair_mode)]. *)
Definition process_step2 (entries : option (list string)) (wb : option sheet)
    (pair : nat) (out_dir0 : gset string) (fuel : nat)
  : run (nat * nat * list (string * string)) :=
  files ← lift (core_list_images entries);
  match wb with
  | None => Done (0, length files, [])
  | Some ws =>
      let rows_data := step2_rows ws in
      st ← step2_loop files fuel pair rows_data
             {| idx := 0; processed_count := 0; out_dir := out_dir0;
                copies := [] |};
      Done (processed_count st, length files - processed_count st, copies st)
  end.

(** ** config.py *)

Inductive cfg_value : Set :=
| VBool (b : bool)
| VStr (s : string)
| VInt (n : Z)
| VNum (q : Q).

(** A Python dict with string keys: its items in insertion order. *)
Definition dict : Set := list (string * cfg_value).

(** [key in d] *)
Definition dict_mem (d : dict) (key : string) : bool :=
  existsb (λ kv, String.eqb kv.1 key) d.

(** [d.get(key)] *)
Fixpoint dict_get (d : dict) (key : string) : option cfg_value :=
  match d with
  | [] => None
  | (k, v) :: d' => if String.eqb k key then Some v else dict_get d' key
  end.

(** [d[key] = value]: in place for a key that is present, at the end
    for a new one. *)
Fixpoint dict_set (d : dict) (key : string) (value : cfg_value) : dict :=
  match d with
  | [] => [(key, value)]
  | (k, v) :: d' =>
      if String.eqb k key then (k, value) :: d'
      else (k, v) :: dict_set d' key value
  end.

Definition DEFAULT_CONFIG : dict :=
  [ ("DARK_MODE", VBool false);
    ("PACK_MODE", VStr "1PACK");
    ("OCR_MODE", VStr "LOCAL");
    ("OCR_MIN_SCORE", VNum (30 # 100));
    ("LAST_OPEN_FOLDER", VStr "");
    ("LAST_SAVE_FOLDER", VStr "");
    ("LAST_S1_EXCEL_FILE", VStr "");
    ("LAST_S1_FOLDER", VStr "");
    ("LAST_S2_FOLDER", VStr "");
    ("LAST_IMAGE_ROOT", VStr "");
    ("OUTPUT_POLICY", VStr "new_folder");
    ("RESULT_EXCEL_NAME", VStr "S2_내품사진_자동생성.xlsx");
    ("REPORT_FILE_NAME", VStr "ocr_summary_report.txt");
    ("GOOGLE_CLOUD_JSON", VStr "");
    ("MAX_IMAGE_WIDTH", VInt 1600);
    ("MAX_FILENAME_LENGTH", VInt 180) ].

(** The settings file: absent, unreadable as JSON, or a JSON object. *)
Inductive config_file : Set :=
| Missing
| Corrupt
| Json (d : dict).

Definition _load_user_config (file : config_file) : dict :=
  match file with
  | Json d => d
  | Missing | Corrupt => []
  end.

(** The second loop of [get_config] and the loop of [update_config]:
    only the keys of [DEFAULT_CONFIG] are written. *)
Definition overwrite_known (cfg items : dict) : dict :=
  foldl
    (λ cfg '(key, value),
       if dict_mem DEFAULT_CONFIG key then dict_set cfg key value else cfg)
    cfg items.

Definition get_config (file : config_file) : dict :=
  let user_cfg := _load_user_config file in
  let merged := foldl (λ merged '(key, value), dict_set merged key value)
                  [] DEFAULT_CONFIG in
  overwrite_known merged user_cfg.

(** [save_config]: the file then holds the JSON object of [cfg]. *)
Definition save_config (cfg : dict) : config_file := Json cfg.

Definition update_config (updates : dict) (file : config_file) : config_file :=
  let cfg := get_config file in
  let cfg := overwrite_known cfg updates in
  save_config cfg.

(** ** ocr_local.py: from the detections to the text and its score *)

(** [" ".join(texts)] *)
Fixpoint join_spaces (texts : list string) : string :=
  match texts with
  | [] => EmptyString
  | [t] => t
  | t :: rest => t +:+ " " +:+ join_spaces rest
  end.

(** The part of [ocr_extract_from_image] after the engine call:
    [result] holds, for each line, its detections (text, score). *)
Definition ocr_result_summary (result : list (list (string * Q)))
  : string * Q :=
  let '(texts, scores) :=
    foldl
      (λ acc line,
         foldl (λ '(texts, scores) '(txt, score),
                  (texts ++ [txt], scores ++ [score]))
           acc line)
      ([], []) result in
  let full_text := Text.strip (join_spaces texts) in
  let avg_score :=
    match scores with
    | [] => 0%Q
    | _ :: _ => (Qsum scores / inject_Z (Z.of_nat (length scores)))%Q
    end in
  (full_text, avg_score).

(** ** user_popup.py: the dialog that asks for the container name

    Each turn of the loop shows the input dialog and then at most one
    yes/no dialog. A round holds the user's answers of one turn: the text
    entered ([None] when the input is cancelled) and the answer to the
    yes/no dialog of that turn; the list of rounds is the fuel of the
    loop. *)
Fixpoint ask_container_name (rounds : list (option string * bool))
  : run string :=
  match rounds with
  | [] => OutOfFuel
  | (ctn, ans) :: rounds' =>
      match ctn with
      | None => if ans then Done EmptyString else ask_container_name rounds'
      | Some ctn =>
          let ctn := Text.strip ctn in
          if negb (Str.truthy ctn) then ask_container_name rounds'
          else if ans then Done ctn
          else ask_container_name rounds'
      end
  end.

(** * Vocabulary of the statements *)

(** The per-image scores of a set that are strictly above zero, in the
    order of the images. *)
Definition positive_scores {F} `{Score F}
    (ocr_extract_from_image : string → string * F)
    (image_set : list string) : list F :=
  List.filter (score_lt score_zero)
    (snd <$> (ocr_extract_from_image <$> image_set)).

(** The number of images of a set, by pack mode (the [step] of
    [group_images]), and the count [_check_count_and_confirm] recommends. *)
Definition group_size (pack_mode : string) : nat :=
  if String.eqb pack_mode "1PACK" then 2 else 3.

Definition recommended (pack_mode : string) : nat :=
  if String.eqb pack_mode "1PACK" then 40 else 60.

Definition known_mode (pack_mode : string) : Prop :=
  pack_mode = "1PACK" ∨ pack_mode = "2PACK".

(** Runs that alternate between text (no character 0-9) and digits (one
    or more characters 0-9), and keys that alternate between [str] and
    [int] components. *)
Definition is_text_run (r : string) : bool :=
  Str.all (λ c, negb (Str.is_digit c)) r.

Definition is_digit_run (r : string) : bool :=
  Str.truthy r && Str.all Str.is_digit r.

Fixpoint runs_alt (is_text : bool) (runs : list string) : bool :=
  match runs with
  | [] => true
  | r :: rs =>
      (if is_text then is_text_run r else is_digit_run r)
      && runs_alt (negb is_text) rs
  end.

(** A name whose key cannot be computed: one of its text runs is made of
    superscript digits only, so [isdigit] accepts it and [int] does not. *)
Definition key_fails (name : string) : bool :=
  existsb (λ r, is_text_run r && isdigit r) (re_split_digits name).

Fixpoint key_alt (is_text : bool) (k : list tok) : bool :=
  match k with
  | [] => true
  | TStr _ :: k' => is_text && key_alt false k'
  | TInt _ :: k' => negb is_text && key_alt true k'
  end.

(** Free of whitespace and of forbidden characters. *)
Definition clean (c : ascii) : Prop :=
  Str.is_space c = false ∧ forbidden c = false.

(** The only whitespace of a name is the plain space. *)
Definition only_plain_spaces (name : string) : bool :=
  Str.all (λ c, negb (Str.is_space c) || Ascii.eqb c " ") name.

(** A cell that holds a string. *)
Definition is_str (v : cell) : bool :=
  match v with
  | CStr _ => true
  | _ => false
  end.

(** [y] does not come before [x] in the order of the keys: the relation
    between neighbours of a sorted list. *)
Definition not_after {A} (key : A → result (list tok)) (x y : A) : Prop :=
  ∃ kx ky, key x = Ok kx ∧ key y = Ok ky ∧ key_lt ky kx = Ok false.

(** The files [list_images] of processing_core.py takes from a listing
    ([None] for a folder that does not exist). *)
Definition core_images (entries : option (list string)) : list string :=
  List.filter
    (λ name, existsb (String.eqb (Str.lower (Path.suffix name))) IMG_WHITELIST)
    (default [] entries).

(** A string made of the characters A-Z, 0-9 and the dash only. *)
Definition is_code (s : string) : bool := Str.all code_char s.

(** What a copy loop keeps true: the files are taken in order, one per
    copy; the destinations are distinct, were not in the output folder
    at the start, and are now in it. *)
Definition copy_inv (files : list string) (out_dir0 : gset string)
    (st : copy_state) : Prop :=
  processed_count st = idx st
  ∧ idx st ≤ length files
  ∧ (copies st).*1 = take (idx st) files
  ∧ NoDup (copies st).*2
  ∧ (∀ d, d ∈ (copies st).*2 → d ∉ out_dir0)
  ∧ out_dir st = list_to_set (copies st).*2 ∪ out_dir0
  ∧ size (out_dir st) = size out_dir0 + idx st.


(** A round that ends the dialog of the container name: a cancelled
    input confirmed, or a text that is not blank confirmed. *)
Definition decisive (round : option string * bool) : bool :=
  match round with
  | (None, ans) => ans
  | (Some ctn, ans) => Str.truthy (Text.strip ctn) && ans
  end.

(** What a decisive round makes the dialog return. *)
Definition answer (round : option string * bool) : string :=
  match round.1 with
  | None => EmptyString
  | Some ctn => Text.strip ctn
  end.

(** The rows of a table in which a required field is missing. *)
Definition row_incomplete (df : DataFrame) (pack_mode : string) (idx : nat)
  : Prop :=
  ∃ col val,
    col ∈ ["ID1"; "Lot1"; "Tag1"]
            ++ (if String.eqb pack_mode "2PACK" then ["Tag2"] else [])
    ∧ df_at df col idx = Some val
    ∧ (isna val || blank val) = true.

(** Data of the worked instances: a folder listing, a worksheet with a
    header row and two data rows, a row of fields and an OCR engine that
    reads the same label with the score 9/10 from every image. *)
Definition demo_entries : list string :=
  ["IMG_10.jpg"; "IMG_2.JPG"; "notes.txt"; "IMG_1.png"; "IMG_11.jpg"].

Definition demo_row (sn : Z) (id_val lot tag1 tag2 : string)
  : list (option cell) :=
  [ Some (CInt sn); None; None; None; None; None; None;
    Some (CStr id_val); Some (CStr lot); Some (CStr tag1);
    None; None; Some (CStr tag2) ].

Definition demo_sheet : sheet :=
  [ [Some (CStr "SN")];
    demo_row 1 "2511" "NSH-2511-1076" "NSH-2511-10762" "NSH-2511-10763";
    demo_row 2 "2511" "NSH-2511-1077" "NSH-2511-10771" "NSH-2511-10772" ].

Definition demo_locals : locals :=
  {| id_val := "2511"; lot := "NSH-2511-1076"; tag1 := "NSH-2511-10762";
     tag2 := "NSH-2511-10762"; needs_inspection := false |}.

Definition demo_ocr (image : string) : string * Q :=
  ("NSH-2511-10762", 9 # 10).

(** * Properties *)

(** ** The code extractor *)

Section Extractor.

Lemma upper_not_dash c : Str.is_upper c = true → Ascii.eqb c "-" = false.
Proof. destruct c as [[] [] [] [] [] [] [] []]; vm_compute; congruence. Qed.

Lemma digit_not_dash c : Str.is_digit c = true → Ascii.eqb c "-" = false.
Proof. destruct c as [[] [] [] [] [] [] [] []]; vm_compute; congruence. Qed.

Lemma match_at_cons a p t m :
  Re.match_at (a :: p) t = Some m →
  ∃ c t' m', t = String c t' ∧ m = String c m'
             ∧ Re.atom_matches a c = true ∧ Re.match_at p t' = Some m'.
Proof.
  destruct t as [|c t']; simpl; [discriminate|].
  destruct (Re.atom_matches a c) eqn:Ha; [|discriminate].
  destruct (Re.match_at p t') as [m'|] eqn:Hm; simpl; [|discriminate].
  intros [= <-]. by exists c, t', m'.
Qed.

Lemma match_at_nil t m : Re.match_at [] t = Some m → m = EmptyString.
Proof. destruct t; simpl; congruence. Qed.

(** A pattern matches wherever a longer pattern it begins does. *)
Lemma match_at_prefix p q t m :
  Re.match_at (p ++ q) t = Some m → is_Some (Re.match_at p t).
Proof.
  revert t m. induction p as [|a p IH]; intros t m H.
  - destruct t; simpl; eauto.
  - apply match_at_cons in H as (c & t' & m' & -> & -> & Ha & Hm).
    simpl. rewrite Ha. destruct (IH _ _ Hm) as [x ->]. simpl. eauto.
Qed.

Lemma search_prefix p q t :
  is_Some (Re.search (p ++ q) t) → is_Some (Re.search p t).
Proof.
  induction t as [|c t IH]; simpl.
  - destruct (Re.match_at (p ++ q) "") eqn:H.
    + apply match_at_prefix in H as [x Hx]. rewrite Hx. eauto.
    + by intros [? ?].
  - destruct (Re.match_at (p ++ q) (String c t)) eqn:H.
    + apply match_at_prefix in H as [x Hx]. rewrite Hx. eauto.
    + intros Hs. destruct (Re.match_at p (String c t)); eauto.
Qed.

Lemma search_match p t m :
  Re.search p t = Some m → ∃ t', Re.match_at p t' = Some m.
Proof.
  induction t as [|c t IH]; simpl.
  - destruct (Re.match_at p "") eqn:H; [|discriminate].
    intros [= <-]. eauto.
  - destruct (Re.match_at p (String c t)) eqn:H; [intros [= <-]; eauto|].
    exact IH.
Qed.

Lemma PATTERN_TAG_atoms :
  PATTERN_TAG
  = [Re.AZ; Re.AZ; Re.AZ; Re.Ch "-"; Re.D; Re.D; Re.D; Re.D; Re.Ch "-";
     Re.D; Re.D; Re.D; Re.D; Re.D].
Proof. reflexivity. Qed.

Lemma PATTERN_FULL_atoms :
  PATTERN_FULL
  = [Re.AZ; Re.AZ; Re.AZ; Re.Ch "-"; Re.D; Re.D; Re.D; Re.D; Re.Ch "-";
     Re.D; Re.D; Re.D; Re.D].
Proof. reflexivity. Qed.

Ltac invert_match H :=
  repeat
    (let c := fresh "c" in
     let Hc := fresh "Hc" in
     apply match_at_cons in H as (c & ? & ? & -> & -> & Hc & H);
     simpl in Hc);
  apply match_at_nil in H as ->.

Ltac split_dashes :=
  repeat match goal with
         | H : Str.is_upper _ = true |- _ => apply upper_not_dash in H
         | H : Str.is_digit _ = true |- _ => apply digit_not_dash in H
         end;
  simpl;
  repeat match goal with
         | H : Ascii.eqb _ "-" = _ |- _ => rewrite H; clear H
         end.

(** The middle segment of a match is its four digits. *)
Lemma tag_middle t m :
  Re.match_at PATTERN_TAG t = Some m →
  ∃ i, index (Str.split "-" m) 1 = Ok i ∧ String.length i = 4.
Proof.
  intros H. rewrite PATTERN_TAG_atoms in H.
  invert_match H. split_dashes. simpl. eauto.
Qed.

Lemma lot_middle t m :
  Re.match_at PATTERN_FULL t = Some m →
  ∃ i, index (Str.split "-" m) 1 = Ok i ∧ String.length i = 4.
Proof.
  intros H. rewrite PATTERN_FULL_atoms in H.
  invert_match H. split_dashes. simpl. eauto.
Qed.

Lemma match_nonempty p t m :
  Re.match_at p t = Some m → p ≠ [] → m ≠ EmptyString.
Proof.
  destruct p; [done|]. intros H _.
  apply match_at_cons in H as (c & ? & ? & -> & -> & _ & _). done.
Qed.

(** [extract_id_lot_tag] never raises. *)
Lemma extract_id_lot_tag_total text :
  ∃ i l t, extract_id_lot_tag text = Ok (i, l, t).
Proof.
  unfold extract_id_lot_tag.
  destruct (negb (Str.truthy text)); [by eauto|].
  destruct (Re.search PATTERN_TAG (Str.upper text)) as [m|] eqn:Ht.
  - destruct (search_match _ _ _ Ht) as [t' Hm].
    destruct (tag_middle _ _ Hm) as (i & -> & _). simpl.
    destruct (Re.search PATTERN_FULL (Str.upper text)); simpl; eauto.
  - simpl.
    destruct (Re.search PATTERN_FULL (Str.upper text)) as [m|] eqn:Hl;
      simpl; [|by eauto].
    destruct (search_match _ _ _ Hl) as [t' Hm].
    destruct (lot_middle _ _ Hm) as (i & -> & _). simpl. eauto.
Qed.

(** Whenever a TAG is found a LOT is found too: the LOT pattern is the
    TAG pattern without its last digit. *)
Lemma tag_implies_lot text i l t :
  extract_id_lot_tag text = Ok (i, l, t) → t ≠ EmptyString → l ≠ EmptyString.
Proof.
  unfold extract_id_lot_tag.
  destruct (negb (Str.truthy text)); [by intros [= <- <- <-]|].
  destruct (Re.search PATTERN_TAG (Str.upper text)) as [m|] eqn:Ht.
  - assert (is_Some (Re.search PATTERN_FULL (Str.upper text))) as [m' Hl].
    { apply (search_prefix PATTERN_FULL [Re.D]).
      change (PATTERN_FULL ++ [Re.D]) with PATTERN_TAG. rewrite Ht. eauto. }
    destruct (search_match _ _ _ Ht) as [t' Hm].
    destruct (tag_middle _ _ Hm) as (j & -> & _). simpl.
    rewrite Hl. simpl. intros [= <- <- <-] _.
    destruct (search_match _ _ _ Hl) as [t'' Hm'].
    by apply (match_nonempty _ _ _ Hm').
  - simpl. destruct (Re.search PATTERN_FULL (Str.upper text)) as [m|] eqn:Hl.
    + destruct (search_match _ _ _ Hl) as [t' Hm].
      destruct (lot_middle _ _ Hm) as (j & -> & _). simpl.
      by intros [= <- <- <-].
    + simpl. by intros [= <- <- <-].
Qed.

End Extractor.

Example extract_lot_only :
  extract_id_lot_tag "lot nsh-2511-1077." = Ok ("2511", "NSH-2511-1077", "").
Proof. reflexivity. Qed.

Example extract_nothing :
  extract_id_lot_tag "NSH-251-1077" = Ok ("", "", "").
Proof. reflexivity. Qed.



(** ** The reconciliation of one set *)

Section Reconciliation.
Context {F : Type} `{Score F}.
Variable ocr_extract_from_image : string → string * F.
Variable OCR_MIN_SCORE : F.
Variable s1_lookup_data : gmap Z S1Row.
Variable pack_mode : string.

Local Abbreviation ocr := ocr_extract_from_image.
Local Abbreviation kept_scores := (positive_scores ocr_extract_from_image).
Local Abbreviation run_set :=
  (worker_set ocr_extract_from_image OCR_MIN_SCORE s1_lookup_data pack_mode).

Lemma ocr_pass_from texts scores image_set :
  foldl
    (λ '(final_ocr_texts, scores) img,
       let '(txt, score) := ocr img in
       (final_ocr_texts ++ [txt],
        if score_lt score_zero score then scores ++ [score] else scores))
    (texts, scores) image_set
  = (texts ++ (fst <$> (ocr <$> image_set)),
     scores ++ kept_scores image_set).
Proof.
  revert texts scores.
  induction image_set as [|img l IH]; intros texts scores; simpl.
  - by rewrite !app_nil_r.
  - destruct (ocr img) as [txt score] eqn:E.
    rewrite IH. unfold positive_scores. simpl. rewrite E. simpl.
    destruct (score_lt score_zero score); by rewrite <- !app_assoc.
Qed.

Lemma ocr_pass_spec image_set :
  ocr_pass ocr image_set
  = (fst <$> (ocr <$> image_set), kept_scores image_set).
Proof. unfold ocr_pass. by rewrite ocr_pass_from. Qed.

Lemma extract_fields_total txt1 texts :
  ∃ i l t t2,
    extract_id_lot_tag txt1 = Ok (i, l, t)
    ∧ extract_fields pack_mode (txt1 :: texts) = Ok (i, l, t, t2).
Proof.
  destruct (extract_id_lot_tag_total txt1) as (i & l & t & E).
  unfold extract_fields. simpl. rewrite E. simpl.
  destruct (String.eqb pack_mode "2PACK" && (1 <? S (length texts)))
    eqn:Hc; simpl; [|by eauto 10].
  destruct texts as [|txt2 texts].
  { rewrite andb_false_r in Hc. discriminate. }
  simpl. destruct (extract_id_lot_tag_total txt2) as (i2 & l2 & t2 & ->).
  simpl. eauto 10.
Qed.

(** One iteration on a non-empty set runs to its end, and its result is
    the final check of the backup of the extracted fields. *)
Lemma worker_set_run sn img rest :
  ∃ i l t t2,
    extract_id_lot_tag (ocr img).1 = Ok (i, l, t)
    ∧ extract_fields pack_mode (fst <$> (ocr <$> img :: rest))
      = Ok (i, l, t, t2)
    ∧ let avg := average (kept_scores (img :: rest)) in
      let st :=
        final_check
          (apply_backup pack_mode (s1_lookup_data !! sn)
             {| id_val := i; lot := l; tag1 := t; tag2 := t2;
                needs_inspection :=
                  check_inspection OCR_MIN_SCORE avg l t |}) in
      run_set sn (img :: rest)
      = Ok {| final := st;
              current_avg_score := avg;
              inspection_flag :=
                if needs_inspection st then "확인 요함" else EmptyString |}.
Proof.
  destruct (extract_fields_total (ocr img).1 (fst <$> (ocr <$> rest)))
    as (i & l & t & t2 & E1 & E2).
  exists i, l, t, t2. split; [done|]. split; [done|].
  unfold worker_set. rewrite ocr_pass_spec.
  change (fst <$> (ocr <$> img :: rest))
    with ((ocr img).1 :: (fst <$> (ocr <$> rest))).
  rewrite E2. reflexivity.
Qed.

(** An empty set has no first text. *)
Lemma worker_set_empty sn : run_set sn [] = Raise IndexError.
Proof. reflexivity. Qed.

(** *** Pure facts about the three stages *)

Lemma truthy_false s : Str.truthy s = false ↔ s = EmptyString.
Proof. destruct s; simpl; split; congruence. Qed.

Lemma truthy_true s : Str.truthy s = true ↔ s ≠ EmptyString.
Proof. destruct s; simpl; split; congruence. Qed.

Lemma or_nonempty a b : a ≠ EmptyString → Str.or a b = a.
Proof. by destruct a. Qed.

Lemma check_inspection_spec avg l t :
  check_inspection OCR_MIN_SCORE avg l t = true
  ↔ score_lt avg OCR_MIN_SCORE = true ∨ l = EmptyString ∨ t = EmptyString.
Proof.
  unfold check_inspection.
  destruct l, t, (score_lt avg OCR_MIN_SCORE); simpl;
    split; try done; eauto; intros [?|[?|?]]; done.
Qed.

(** The backup keeps the flag and every non-empty field. *)
Lemma apply_backup_needs s1 st :
  needs_inspection (apply_backup pack_mode s1 st) = needs_inspection st.
Proof.
  unfold apply_backup. destruct s1; [|done].
  by destruct (negb (Str.truthy (lot st)) || negb (Str.truthy (tag1 st))).
Qed.

Lemma apply_backup_keeps s1 st :
  let st' := apply_backup pack_mode s1 st in
  (id_val st ≠ EmptyString → id_val st' = id_val st)
  ∧ (lot st ≠ EmptyString → lot st' = lot st)
  ∧ (tag1 st ≠ EmptyString → tag1 st' = tag1 st)
  ∧ (tag2 st ≠ EmptyString → tag2 st' = tag2 st).
Proof.
  unfold apply_backup. destruct s1 as [row|]; [|done].
  destruct (negb (Str.truthy (lot st)) || negb (Str.truthy (tag1 st)));
    [|done].
  simpl. repeat split; intros Hne; try by apply or_nonempty.
  destruct (String.eqb pack_mode "2PACK"); [by apply or_nonempty|done].
Qed.

(** The backup is applied only to a set with an empty lot or tag and a
    lookup row, and then it only fills empty fields, from that row. *)
Lemma apply_backup_only s1 st :
  apply_backup pack_mode s1 st ≠ st →
  (lot st = EmptyString ∨ tag1 st = EmptyString) ∧ is_Some s1.
Proof.
  unfold apply_backup. destruct s1 as [row|]; [|done].
  destruct (Str.truthy (lot st)) eqn:El, (Str.truthy (tag1 st)) eqn:Et;
    simpl; try done; intros _; split; eauto;
    rewrite ?truthy_false in *; eauto.
Qed.

Lemma final_check_spec st :
  let st' := final_check st in
  id_val st' = id_val st ∧ tag2 st' = tag2 st
  ∧ lot st' = (if Str.truthy (lot st) then lot st else "NO_LOT")
  ∧ tag1 st' = (if Str.truthy (tag1 st) then tag1 st else "NO_TAG")
  ∧ needs_inspection st'
    = needs_inspection st
      || negb (Str.truthy (lot st)) || negb (Str.truthy (tag1 st)).
Proof.
  unfold final_check.
  destruct (Str.truthy (lot st)) eqn:El, (Str.truthy (tag1 st)) eqn:Et;
    simpl; rewrite ?El, ?Et; simpl; repeat split;
    by rewrite ?orb_true_r, ?orb_false_r.
Qed.

(** *** The aggregated score and the flag *)

(** The score of a set is [average] of the scores above zero, and the
    flag is decided by that score and by the two extracted fields,
    whatever the backup fills in later. *)
Lemma worker_set_score_and_flag sn img rest :
  ∃ o i l t,
    run_set sn (img :: rest) = Ok o
    ∧ extract_id_lot_tag (ocr img).1 = Ok (i, l, t)
    ∧ current_avg_score o = average (kept_scores (img :: rest))
    ∧ (needs_inspection (final o) = true
       ↔ score_lt (current_avg_score o) OCR_MIN_SCORE = true
         ∨ l = EmptyString ∨ t = EmptyString)
    ∧ (inspection_flag o = "확인 요함" ↔ needs_inspection (final o) = true).
Proof.
  destruct (worker_set_run sn img rest) as (i & l & t & t2 & E1 & _ & E).
  cbv zeta in E. eexists _, i, l, t. split; [exact E|]. split; [exact E1|].
  simpl final. simpl current_avg_score. simpl inspection_flag.
  split; [done|]. split.
  - destruct (final_check_spec
                (apply_backup pack_mode (s1_lookup_data !! sn)
                   {| id_val := i; lot := l; tag1 := t; tag2 := t2;
                      needs_inspection :=
                        check_inspection OCR_MIN_SCORE
                          (average (kept_scores (img :: rest))) l t |}))
      as (_ & _ & _ & _ & ->).
    rewrite apply_backup_needs. simpl needs_inspection.
    rewrite <- check_inspection_spec.
    destruct (check_inspection OCR_MIN_SCORE _ l t) eqn:Hc; [done|].
    simpl. split; [|done]. intros Hn. exfalso.
    assert (l ≠ EmptyString ∧ t ≠ EmptyString) as [Hl Ht].
    { split; intros Hx;
        (enough (check_inspection OCR_MIN_SCORE
                   (average (kept_scores (img :: rest))) l t = true)
           by congruence);
        apply check_inspection_spec; eauto. }
    destruct (apply_backup_keeps (s1_lookup_data !! sn)
                {| id_val := i; lot := l; tag1 := t; tag2 := t2;
                   needs_inspection := false |}) as (_ & Kl & Kt & _).
    simpl in Kl, Kt. specialize (Kl Hl). specialize (Kt Ht).
    rewrite Kl, Kt in Hn.
    apply truthy_true in Hl, Ht. rewrite Hl, Ht in Hn. done.
  - by destruct (needs_inspection _).
Qed.

(** The final check leaves neither field empty. *)
Lemma final_check_nonempty st :
  lot (final_check st) ≠ EmptyString ∧ tag1 (final_check st) ≠ EmptyString.
Proof.
  destruct (final_check_spec st) as (_ & _ & -> & -> & _).
  split; by destruct (Str.truthy _) eqn:T; [apply truthy_true|].
Qed.

Lemma worker_set_nonempty sn img rest :
  ∃ o, run_set sn (img :: rest) = Ok o
       ∧ lot (final o) ≠ EmptyString ∧ tag1 (final o) ≠ EmptyString.
Proof.
  destruct (worker_set_run sn img rest) as (i & l & t & t2 & _ & _ & E).
  cbv zeta in E. eexists. split; [exact E|]. apply final_check_nonempty.
Qed.

(** C3: for a set of at least one image the finalized lot and tag1 are
    never empty; when the extraction gives no lot and the lookup has no
    row for the SN or a row with an empty Lot1, the lot is the literal
    NO_LOT and the inspection flag is set, and likewise tag1 becomes
    NO_TAG. *)
Theorem sentinel_guarantee sn img rest :
  ∃ o i l t,
    run_set sn (img :: rest) = Ok o
    ∧ extract_id_lot_tag (ocr img).1 = Ok (i, l, t)
    ∧ lot (final o) ≠ EmptyString
    ∧ tag1 (final o) ≠ EmptyString
    ∧ (l = EmptyString →
       (∀ row, s1_lookup_data !! sn = Some row → Lot1 row = EmptyString) →
       lot (final o) = "NO_LOT" ∧ needs_inspection (final o) = true)
    ∧ (t = EmptyString →
       (∀ row, s1_lookup_data !! sn = Some row → Tag1 row = EmptyString) →
       tag1 (final o) = "NO_TAG" ∧ needs_inspection (final o) = true).
Proof.
  destruct (worker_set_run sn img rest) as (i & l & t & t2 & E1 & _ & E).
  cbv zeta in E. eexists _, i, l, t. split; [exact E|]. split; [exact E1|].
  simpl final. clear E E1.
  match goal with
  | |- context [final_check ?st] =>
      destruct (final_check_spec st) as (_ & _ & Hl & Ht & Hn);
      rewrite Hl, Ht, Hn; clear Hl Ht Hn
  end.
  split; [by destruct (Str.truthy _) eqn:T; [apply truthy_true|]|].
  split; [by destruct (Str.truthy _) eqn:T; [apply truthy_true|]|].
  split.
  - intros -> Hrow. unfold apply_backup.
    destruct (s1_lookup_data !! sn) as [row|]; simpl;
      rewrite ?(Hrow row eq_refl); simpl; by rewrite ?orb_true_r.
  - intros -> Hrow. unfold apply_backup.
    destruct (s1_lookup_data !! sn) as [row|]; simpl;
      rewrite ?orb_true_r; simpl; rewrite ?(Hrow row eq_refl); simpl;
      by rewrite ?orb_true_r.
Qed.

(** C4: for a set of at least one image, every field the extraction
    yields non-empty (id, lot, tag1, tag2) keeps its extracted value in
    the finalized row, whatever the lookup row holds; the backup changes
    the fields only when the lot or tag1 is empty and a lookup row exists
    for the SN. *)
Theorem backup_never_overwrites sn img rest :
  ∃ o i l t t2,
    run_set sn (img :: rest) = Ok o
    ∧ extract_fields pack_mode (fst <$> (ocr <$> img :: rest))
      = Ok (i, l, t, t2)
    ∧ (i ≠ EmptyString → id_val (final o) = i)
    ∧ (l ≠ EmptyString → lot (final o) = l)
    ∧ (t ≠ EmptyString → tag1 (final o) = t)
    ∧ (t2 ≠ EmptyString → tag2 (final o) = t2)
    ∧ ∃ st, id_val st = i ∧ lot st = l ∧ tag1 st = t ∧ tag2 st = t2
        ∧ final o = final_check (apply_backup pack_mode (s1_lookup_data !! sn) st)
        ∧ (apply_backup pack_mode (s1_lookup_data !! sn) st ≠ st →
           (l = EmptyString ∨ t = EmptyString)
           ∧ is_Some (s1_lookup_data !! sn)).
Proof.
  destruct (worker_set_run sn img rest) as (i & l & t & t2 & _ & E2 & E).
  cbv zeta in E. eexists _, i, l, t, t2.
  split; [exact E|]. split; [exact E2|]. simpl final.
  match goal with
  | |- context [apply_backup _ _ ?st0] => set (st := st0)
  end.
  destruct (final_check_spec (apply_backup pack_mode (s1_lookup_data !! sn) st))
    as (Hi & H2 & Hl & Ht & _).
  destruct (apply_backup_keeps (s1_lookup_data !! sn) st)
    as (Ki & Kl & Kt & K2).
  simpl in Ki, Kl, Kt, K2.
  split; [intros Hne; by rewrite Hi, Ki|].
  split.
  { intros Hne. rewrite Hl, (Kl Hne). by apply truthy_true in Hne as ->. }
  split.
  { intros Hne. rewrite Ht, (Kt Hne). by apply truthy_true in Hne as ->. }
  split; [intros Hne; by rewrite H2, K2|].
  exists st. do 5 (split; [done|]).
  intros Hch. by apply apply_backup_only in Hch.
Qed.
End Reconciliation.

(** *** The score in the program's arithmetic *)


#[local] Set Warnings "-inexact-float".

(** Rounding decides the flag: the scores 0.01, 0.06 and 0.83 sum to
    0.8999999999999999 and average to 0.3, which is not below the
    threshold 0.30, so a set with a lot and a tag is not flagged. *)
Example reconciliation_rounding :
  let ocr img :=
    ("NSH-2511-10762",
     if String.eqb img "a.jpg" then 0.01
     else if String.eqb img "b.jpg" then 0.06 else 0.83)%float in
  ∃ o, worker_set ocr 0.30%float ∅ "2PACK" 1 ["a.jpg"; "b.jpg"; "c.jpg"] = Ok o
       ∧ current_avg_score o = 0.3%float
       ∧ needs_inspection (final o) = false.
Proof. eexists. split; [vm_compute; reflexivity|]. by vm_compute. Qed.

#[local] Set Warnings "+inexact-float".

(** *** The score in exact arithmetic *)

Section ExactScores.

Lemma Qlt_bool_iff x y : Qlt_bool x y = true ↔ (x < y)%Q.
Proof.
  unfold Qlt_bool. rewrite negb_true_iff.
  split.
  - intros Hb. apply Qnot_le_lt. intros Hle.
    apply Qle_bool_iff in Hle. congruence.
  - intros Hlt. destruct (Qle_bool y x) eqn:E; [|done].
    apply Qle_bool_iff in E. by apply Qlt_not_le in Hlt.
Qed.

Lemma Qsum_from a l : (foldl Qplus a l == a + fold_right Qplus 0 l)%Q.
Proof.
  revert a. induction l as [|x l IH]; intros a; simpl.
  - by rewrite Qplus_0_r.
  - rewrite IH. by rewrite Qplus_assoc.
Qed.

Lemma Qsum_spec l : (Qsum l == fold_right Qplus 0 l)%Q.
Proof. unfold Qsum. rewrite Qsum_from. apply Qplus_0_l. Qed.

(** On rationals [average] is the exact mean. *)
Lemma average_spec (scores : list Q) :
  (scores = [] → average scores = 0%Q)
  ∧ (scores ≠ [] →
     (average scores * inject_Z (Z.of_nat (length scores))
      == fold_right Qplus 0 scores)%Q).
Proof.
  split; [by intros ->|].
  destruct scores as [|x l]; [done|]. intros _.
  change (average (x :: l))
    with (Qsum (x :: l) / inject_Z (Z.of_nat (length (x :: l))))%Q.
  rewrite <- Qsum_spec. rewrite Qmult_comm. apply Qmult_div_r.
  change 0%Q with (inject_Z 0). rewrite inject_Z_injective.
  simpl length. lia.
Qed.

End ExactScores.

(** ** Natural order and grouping *)

Section NaturalKey.

Lemma digit_is_digit_char c : Str.is_digit c = true → Str.is_digit_char c = true.
Proof. unfold Str.is_digit_char. by intros ->. Qed.

(** A digit run is read as an integer. *)
Lemma digit_run_tok r :
  is_digit_run r = true →
  isdigit r = true ∧ int_of r = Ok (int_from 0 r) ∧ is_text_run r = false.
Proof.
  unfold is_digit_run, isdigit, int_of, is_text_run.
  intros [Hne Hall]%andb_prop. rewrite Hne, Hall. simpl.
  split; [|split; [done|]].
  - clear Hne. induction r as [|c r IH]; [done|]. simpl in *.
    apply andb_prop in Hall as [Hc Hr]. by rewrite digit_is_digit_char, IH.
  - destruct r as [|c r]; [done|]. simpl in *.
    apply andb_prop in Hall as [-> _]. done.
Qed.

(** A text run that [isdigit] accepts holds no decimal digit, so [int]
    rejects it. *)
Lemma text_run_int r :
  is_text_run r = true → isdigit r = true → int_of r = Raise ValueError.
Proof.
  unfold is_text_run, isdigit, int_of. destruct r as [|c r]; [done|].
  simpl. intros [Hc _]%andb_prop _. apply negb_true_iff in Hc.
  by rewrite Hc.
Qed.

(** The scanner yields a text run first and alternates from there; the
    digit runs it closes are not empty. *)
Lemma scan_runs s :
  (∃ t rest, in_text s = t :: rest
             ∧ is_text_run t = true
             ∧ runs_alt false rest = true)
  ∧ (∃ d rest, in_digits s = d :: rest
               ∧ Str.all Str.is_digit d = true
               ∧ runs_alt true rest = true).
Proof.
  unfold is_text_run.
  induction s as [|c s [(t & rt & Et & Ht & Art) (d & rd & Ed & Hd & Ard)]].
  - split; [by exists EmptyString, []|by exists EmptyString, [EmptyString]].
  - simpl. rewrite Et, Ed. simpl.
    destruct (Str.is_digit c) eqn:Hc; split.
    + exists EmptyString, (String c d :: rd). repeat split.
      simpl. unfold is_digit_run. simpl. by rewrite Hc, Hd.
    + exists (String c d), rd. repeat split; [|done]. simpl. by rewrite Hc.
    + exists (String c t), rt. repeat split; [|done]. simpl. by rewrite Hc.
    + exists EmptyString, (String c t :: rt). repeat split.
      simpl. unfold is_text_run. simpl. by rewrite Hc, Ht.
Qed.

Lemma re_split_digits_alt s : runs_alt true (re_split_digits s) = true.
Proof.
  destruct (scan_runs s) as [(t & rest & E & Ht & Hr) _].
  unfold re_split_digits. rewrite E. simpl. by rewrite Ht.
Qed.

(** The key of alternating runs: [ValueError] when a text run is made of
    superscript digits, otherwise a key that alternates. *)
Lemma key_of_runs b runs :
  runs_alt b runs = true →
  let key_of :=
    mapM (λ s, if isdigit s then n ← int_of s; Ok (TInt n)
               else Ok (TStr (Str.lower s))) runs in
  if existsb (λ r, is_text_run r && isdigit r) runs
  then key_of = Raise ValueError
  else ∃ k, key_of = Ok k ∧ key_alt b k = true.
Proof.
  cbv zeta. revert b. induction runs as [|r runs IH]; intros b.
  { intros _. simpl. by exists []. }
  cbn [runs_alt existsb mapM]. intros [Hr Hrest]%andb_prop.
  specialize (IH _ Hrest).
  change (mapM ?f (r :: runs)) with (y ← f r; k ← mapM f runs; mret (y :: k)).
  destruct b.
  - rewrite Hr. cbn [andb]. destruct (isdigit r) eqn:Hd; cbn [orb].
    + by rewrite (text_run_int r Hr Hd).
    + cbn [mbind result_bind].
      destruct (existsb _ runs).
      * by rewrite IH.
      * destruct IH as (k & -> & Hk). eexists. split; [reflexivity|].
        simpl. exact Hk.
  - destruct (digit_run_tok r Hr) as (-> & -> & ->).
    cbn [andb orb mbind result_bind].
    destruct (existsb _ runs).
    + by rewrite IH.
    + destruct IH as (k & -> & Hk). eexists. split; [reflexivity|].
      simpl. exact Hk.
Qed.

(** [_natural_sort_key] raises [ValueError] on the names of [key_fails]
    and returns an alternating key on every other name. *)
Lemma natural_sort_key_cases s :
  if key_fails s then _natural_sort_key s = Raise ValueError
  else ∃ k, _natural_sort_key s = Ok k ∧ key_alt true k = true.
Proof. apply (key_of_runs true), re_split_digits_alt. Qed.

Lemma natural_sort_key_ok s k :
  _natural_sort_key s = Ok k → key_fails s = false ∧ key_alt true k = true.
Proof.
  intros E. pose proof (natural_sort_key_cases s) as Hc.
  destruct (key_fails s); [congruence|].
  destruct Hc as (k' & E' & Hk). split; [done|]. congruence.
Qed.

(** Keys of the same alternation are comparable: [<] does not raise. *)
Lemma key_lt_alt b k1 k2 :
  key_alt b k1 = true → key_alt b k2 = true → ∃ r, key_lt k1 k2 = Ok r.
Proof.
  revert b k2. induction k1 as [|x k1 IH]; intros b [|y k2] H1 H2;
    simpl; eauto.
  destruct x, y, b; simpl in *; try done;
    (destruct (_ =? _)%N || destruct (String.eqb _ _)); eauto.
Qed.

Lemma natural_keys_comparable x y kx ky :
  _natural_sort_key x = Ok kx → _natural_sort_key y = Ok ky →
  ∃ r, key_lt kx ky = Ok r.
Proof.
  intros [_ Hx]%natural_sort_key_ok [_ Hy]%natural_sort_key_ok.
  by eapply key_lt_alt.
Qed.

End NaturalKey.

Section SortTotal.
Context {A : Type}.

Local Abbreviation keyed := (list tok * A)%type.

Lemma insert_sorted_perm (x : keyed) l r :
  insert_sorted x l = Ok r → x :: l ≡ₚ r.
Proof.
  revert r. induction l as [|y l IH]; intros r; simpl.
  { by intros [= <-]. }
  destruct (key_lt y.1 x.1) as [[]|]; simpl; [| |done].
  - destruct (insert_sorted x l) as [r'|]; simpl; [|done].
    intros [= <-]. rewrite Permutation_swap. constructor. by apply IH.
  - by intros [= <-].
Qed.

Lemma sort_keyed_perm (l r : list keyed) : sort_keyed l = Ok r → l ≡ₚ r.
Proof.
  revert r. induction l as [|x l IH]; intros r; simpl.
  { by intros [= <-]. }
  destruct (sort_keyed l) as [s|]; simpl; [|done].
  intros E%insert_sorted_perm. rewrite <- E. constructor. by apply IH.
Qed.

(** With alternating keys no comparison raises. *)
Lemma insert_sorted_total (x : keyed) l :
  key_alt true x.1 = true → Forall (λ y, key_alt true y.1 = true) l →
  ∃ r, insert_sorted x l = Ok r.
Proof.
  intros Hx. induction 1 as [|y l Hy _ (r & E)]; simpl; [by eauto|].
  destruct (key_lt_alt true y.1 x.1 Hy Hx) as [[] ->]; simpl; [|by eauto].
  rewrite E. simpl. eauto.
Qed.

Lemma sort_keyed_total (l : list keyed) :
  Forall (λ y, key_alt true y.1 = true) l → ∃ r, sort_keyed l = Ok r.
Proof.
  induction 1 as [|x l Hx Hl (s & E)]; simpl; [by eauto|].
  rewrite E. simpl. apply insert_sorted_total; [done|].
  apply sort_keyed_perm in E. by rewrite <- E.
Qed.

Lemma tok_eqb_sym x y : tok_eqb x y = tok_eqb y x.
Proof.
  destruct x, y; simpl; [apply N.eqb_sym|done|done|apply String.eqb_sym].
Qed.

Lemma tok_lt_asym x y : tok_lt x y = Ok true → tok_lt y x = Ok false.
Proof.
  destruct x as [m|s], y as [n|t]; simpl; try done; intros [= Hlt]; f_equal.
  - apply N.ltb_lt in Hlt. apply N.ltb_ge. lia.
  - unfold String.ltb in *. rewrite String.compare_antisym.
    by destruct (s ?= t)%string.
Qed.

Lemma key_lt_asym a b : key_lt a b = Ok true → key_lt b a = Ok false.
Proof.
  revert b. induction a as [|x a IH]; intros [|y b]; simpl; try done.
  rewrite (tok_eqb_sym y x). destruct (tok_eqb x y); [apply IH|].
  apply tok_lt_asym.
Qed.

(** The order of the keys between neighbours of the sorted pairs. *)
Local Abbreviation keys_not_after :=
  (λ x y : keyed, key_lt y.1 x.1 = Ok false).

(** The head of the list after an insertion is the new element or the
    old head. *)
Lemma insert_sorted_head (x : keyed) l r :
  insert_sorted x l = Ok r →
  ∃ r', r = x :: r' ∨ (∃ y l', l = y :: l' ∧ r = y :: r').
Proof.
  destruct l as [|y l]; simpl; [intros [= <-]; eauto|].
  destruct (key_lt y.1 x.1) as [[]|]; simpl; [|intros [= <-]; eauto|done].
  destruct (insert_sorted x l) as [r'|]; simpl; [|done].
  intros [= <-]. eauto 10.
Qed.

Lemma insert_sorted_Sorted (x : keyed) l r :
  Sorted keys_not_after l → insert_sorted x l = Ok r →
  Sorted keys_not_after r.
Proof.
  intros Hl. revert r. induction Hl as [|y l Hl IH Hhd]; intros r; simpl.
  - intros [= <-]. by repeat constructor.
  - destruct (key_lt y.1 x.1) as [[]|] eqn:Hyx; simpl; [| |done].
    + destruct (insert_sorted x l) as [r'|] eqn:Hr; simpl; [|done].
      intros [= <-]. constructor; [by apply IH|].
      destruct (insert_sorted_head _ _ _ Hr) as [r0 [->|(z & l' & -> & ->)]].
      * constructor. by apply key_lt_asym.
      * constructor. by inversion Hhd.
    + intros [= <-]. constructor; [by constructor|by constructor].
Qed.

Lemma sort_keyed_Sorted (l r : list keyed) :
  sort_keyed l = Ok r → Sorted keys_not_after r.
Proof.
  revert r. induction l as [|x l IH]; intros r; simpl.
  - intros [= <-]. constructor.
  - destruct (sort_keyed l) as [s|]; simpl; [|done].
    apply insert_sorted_Sorted. by apply IH.
Qed.

(** *** Sorting by a key that may raise *)

Variable key : A → result (list tok).

(** The keys are computed for every element, in order. *)
Lemma keys_computed l keyed_l :
  mapM (λ x, k ← key x; Ok (k, x)) l = Ok keyed_l →
  keyed_l.*2 = l ∧ Forall (λ p, key p.2 = Ok p.1) keyed_l.
Proof.
  revert keyed_l. induction l as [|x l IH]; intros keyed_l.
  { intros [= <-]. by split. }
  change (mapM ?f (x :: l)) with (y ← f x; k ← mapM f l; mret (y :: k)).
  cbv beta.
  destruct (key x) as [k|] eqn:Ek; cbn [mbind result_bind]; [|done].
  destruct (mapM _ l) as [kl|]; cbn [mbind result_bind mret result_ret];
    [|done].
  intros [= <-]. destruct (IH kl eq_refl) as [E Hall].
  split; [by rewrite fmap_cons, E|]. by constructor.
Qed.

Lemma keys_total l :
  Forall (λ x, ∃ k, key x = Ok k) l →
  ∃ keyed_l, mapM (λ x, k ← key x; Ok (k, x)) l = Ok keyed_l.
Proof.
  induction 1 as [|x l [k Ek] _ (kl & E)]; [by exists []|].
  change (mapM ?f (x :: l)) with (y ← f x; k ← mapM f l; mret (y :: k)).
  cbv beta.
  rewrite Ek. cbn [mbind result_bind]. rewrite E. cbn [mbind result_bind].
  eauto.
Qed.

(** When every key is computed or raises [e], and one raises, the sort
    raises [e]. *)
Lemma keys_raise e l :
  Forall (λ x, key x = Raise e ∨ ∃ k, key x = Ok k) l →
  Exists (λ x, key x = Raise e) l →
  mapM (λ x, k ← key x; Ok (k, x)) l = Raise e.
Proof.
  induction 1 as [|x l Hx Hl IH]; intros Hex; [by apply Exists_nil in Hex|].
  change (mapM ?f (x :: l)) with (y ← f x; k ← mapM f l; mret (y :: k)).
  cbv beta.
  destruct Hx as [->|[k Ek]]; [done|].
  rewrite Ek. cbn [mbind result_bind].
  apply Exists_cons in Hex as [Hx|Hex]; [congruence|].
  by rewrite IH.
Qed.

Lemma sort_raise e l :
  Forall (λ x, key x = Raise e ∨ ∃ k, key x = Ok k) l →
  Exists (λ x, key x = Raise e) l →
  sort key l = Raise e.
Proof. intros Hall Hex. unfold sort. by rewrite (keys_raise e l). Qed.

(** A sort that returns gives the elements back, each once, in the order
    of their keys, all of which were computed. *)
Lemma sort_ok l r :
  sort key l = Ok r →
  l ≡ₚ r ∧ Sorted (not_after key) r ∧ Forall (λ x, ∃ k, key x = Ok k) l.
Proof.
  unfold sort.
  destruct (mapM _ l) as [kl|] eqn:Ekl; cbn [mbind result_bind]; [|done].
  destruct (sort_keyed kl) as [s|] eqn:Es; cbn [mbind result_bind]; [|done].
  intros [= <-]. destruct (keys_computed l kl Ekl) as [El Hkeys].
  pose proof (sort_keyed_perm kl s Es) as Hperm.
  assert (Forall (λ p, key p.2 = Ok p.1) s) as Hs by by rewrite <- Hperm.
  split; [by rewrite <- El, Hperm|]. split.
  - pose proof (sort_keyed_Sorted kl s Es) as Hsorted. clear -Hsorted Hs.
    induction Hsorted as [|p s Hsorted IH Hhd]; [constructor|].
    apply Forall_cons in Hs as [Hp Hs]. rewrite fmap_cons.
    constructor; [by apply IH|].
    destruct Hhd as [|q s' Hpq]; [constructor|].
    apply Forall_cons in Hs as [Hq _]. rewrite fmap_cons. constructor.
    by exists p.1, q.1.
  - rewrite <- El. clear -Hkeys.
    induction Hkeys as [|p kl Hp _ IH]; [constructor|].
    rewrite fmap_cons. constructor; [by exists p.1|done].
Qed.

(** With alternating keys the sort returns. *)
Lemma sort_total l :
  Forall (λ x, ∃ k, key x = Ok k ∧ key_alt true k = true) l →
  ∃ r, sort key l = Ok r.
Proof.
  intros Hall. unfold sort.
  destruct (keys_total l) as (kl & Ekl).
  { eapply Forall_impl; [exact Hall|]. intros x (k & Ek & _). eauto. }
  rewrite Ekl. cbn [mbind result_bind].
  destruct (keys_computed l kl Ekl) as [El Hkeys].
  destruct (sort_keyed_total kl) as (s & ->); [|by eexists].
  rewrite <- El in Hall. clear -Hall Hkeys.
  induction Hkeys as [|p kl Hp _ IH]; [constructor|].
  rewrite fmap_cons in Hall. apply Forall_cons in Hall as [(k & Ek & Hk) Hall].
  constructor; [|by apply IH]. congruence.
Qed.

End SortTotal.

(** Sorting names by [_natural_sort_key]: [ValueError] when the key of a
    name fails, otherwise the names come back in natural order. *)
Lemma natural_sort_cases (names : list string) :
  (Exists (λ name, key_fails name = true) names →
   sort _natural_sort_key names = Raise ValueError)
  ∧ (Forall (λ name, key_fails name = false) names →
     ∃ files, sort _natural_sort_key names = Ok files)
  ∧ ∀ files, sort _natural_sort_key names = Ok files →
      names ≡ₚ files
      ∧ Sorted (not_after _natural_sort_key) files
      ∧ Forall (λ name, key_fails name = false) names.
Proof.
  split; [|split].
  - intros Hex. apply sort_raise.
    + apply List.Forall_forall. intros x _.
      pose proof (natural_sort_key_cases x) as Hc.
      destruct (key_fails x); [by left|].
      destruct Hc as (k & Ek & _). right. eauto.
    + eapply Exists_impl; [exact Hex|]. intros x Hx.
      pose proof (natural_sort_key_cases x) as Hc. by rewrite Hx in Hc.
  - intros Hall. apply sort_total.
    eapply Forall_impl; [exact Hall|]. intros x Hx.
    pose proof (natural_sort_key_cases x) as Hc. by rewrite Hx in Hc.
  - intros files E. destruct (sort_ok _ _ _ E) as (Hp & Hs & Hk).
    split; [done|]. split; [done|].
    eapply Forall_impl; [exact Hk|]. intros x [k Ek].
    by apply natural_sort_key_ok in Ek as [? _].
Qed.

(** [list_images]: when it returns, the result is the image files of the
    folder, each once. *)
Lemma list_images_ok entries files :
  list_images entries = Ok files →
  List.filter is_image entries ≡ₚ files
  ∧ Sorted (not_after _natural_sort_key) files.
Proof.
  intros E. destruct (natural_sort_cases (List.filter is_image entries))
    as (_ & _ & Hok).
  destruct (Hok files E) as (? & ? & _). by split.
Qed.

Example re_split_digits_examples :
  re_split_digits "IMG_10.jpg" = ["IMG_"; "10"; ".jpg"]
  ∧ re_split_digits "12ab034" = [""; "12"; "ab"; "034"; ""]
  ∧ re_split_digits "" = [""].
Proof. repeat split. Qed.

Section Grouping.

Lemma foldl_collect {B} (g : nat → list B) step acc idxs :
  foldl
    (λ groups i,
       let group := g i in
       if length group =? step then groups ++ [group] else groups)
    acc idxs
  = acc ++ List.filter (λ x, length x =? step) (g <$> idxs).
Proof.
  revert acc. induction idxs as [|i idxs IH]; intros acc; simpl.
  - by rewrite app_nil_r.
  - rewrite IH. destruct (length (g i) =? step); [|done].
    by rewrite <- app_assoc.
Qed.

Lemma range_step_exact n step :
  0 < step → range_step (n * step) step = (λ k, k * step) <$> seq 0 n.
Proof.
  intros Hs. unfold range_step. f_equal. f_equal.
  replace (n * step + step - 1) with (n * step + (step - 1)) by lia.
  rewrite Nat.div_add_l by lia. rewrite Nat.div_small by lia. lia.
Qed.

(** Cutting a list of [n * step] elements at the multiples of [step]
    gives [n] pieces of [step] elements that concatenate to the list. *)
Lemma chunks_spec {B} step n (l : list B) :
  length l = n * step →
  let chunks := (λ k, take step (drop (k * step) l)) <$> seq 0 n in
  Forall (λ g, length g = step) chunks ∧ concat chunks = l.
Proof.
  revert l. induction n as [|n IH]; intros l Hlen; simpl.
  - split; [constructor|]. symmetry. by apply nil_length_inv.
  - rewrite <- fmap_S_seq, <- list_fmap_compose.
    destruct (IH (drop step l)) as [Hall Hcat].
    { rewrite length_drop. lia. }
    assert ((λ k, take step (drop (k * step) l)) ∘ S <$> seq 0 n
            = (λ k, take step (drop (k * step) (drop step l))) <$> seq 0 n)
      as ->.
    { apply list_fmap_ext. intros _ k _. simpl. by rewrite drop_drop. }
    split.
    + constructor; [|done]. rewrite drop_0, length_take. lia.
    + rewrite Hcat, drop_0. apply take_drop.
Qed.

Lemma filter_all {B} (p : B → bool) l :
  Forall (λ x, p x = true) l → List.filter p l = l.
Proof. induction 1 as [|x l Hx _ IH]; simpl; [done|]. by rewrite Hx, IH. Qed.

(** The groups the loop collects from a list of [n * step] files. *)
Lemma collect_exact step n (files : list string) :
  0 < step → length files = n * step →
  let groups :=
    foldl
      (λ groups i,
         let group := slice files i (i + step) in
         if length group =? step then groups ++ [group] else groups)
      [] (range_step (length files) step) in
  Forall (λ g, length g = step) groups
  ∧ length groups = n ∧ concat groups = files.
Proof.
  intros Hs Hlen. cbv zeta.
  rewrite (foldl_collect (λ i, slice files i (i + step))). simpl.
  rewrite Hlen, range_step_exact by done. rewrite <- list_fmap_compose.
  assert ((λ i, slice files i (i + step)) ∘ (λ k, k * step) <$> seq 0 n
          = (λ k, take step (drop (k * step) files)) <$> seq 0 n) as ->.
  { apply list_fmap_ext. intros _ k _. simpl. unfold slice.
    by replace (k * step + step - k * step) with step by lia. }
  destruct (chunks_spec step n files Hlen) as [Hall Hcat].
  rewrite filter_all.
  - split; [done|]. split; [|done]. by rewrite length_fmap, length_seq.
  - eapply Forall_impl; [exact Hall|]. intros g ->. apply Nat.eqb_refl.
Qed.

Lemma check_count_spec total pack_mode ans :
  _check_count_and_confirm total pack_mode ans = true
  ↔ known_mode pack_mode
    ∧ total mod group_size pack_mode = 0
    ∧ (total = recommended pack_mode ∨ ans = true).
Proof.
  unfold _check_count_and_confirm, known_mode, group_size, recommended.
  destruct (String.eqb_spec pack_mode "1PACK") as [->|H1].
  - destruct (Nat.eqb_spec (total mod 2) 0) as [Hm|Hm],
      (Nat.eqb_spec total 40) as [Ht|Ht], ans; cbn [negb andb];
      split; try done; eauto; intros (_ & ? & [?|?]); done.
  - destruct (String.eqb_spec pack_mode "2PACK") as [->|H2].
    + destruct (Nat.eqb_spec (total mod 3) 0) as [Hm|Hm],
        (Nat.eqb_spec total 60) as [Ht|Ht], ans; cbn [negb andb];
        split; try done; eauto; intros (_ & ? & [?|?]); done.
    + split; [done|]. by intros ([?|?] & _).
Qed.

(** What [group_images] returns once the files are listed. *)
Lemma group_images_from files entries pack_mode ans :
  list_images entries = Ok files →
  ∃ groups,
    group_images entries pack_mode ans = Ok groups
    ∧ Forall (λ g, length g = group_size pack_mode) groups
    ∧ (_check_count_and_confirm (length files) pack_mode ans = true →
       length groups = length files / group_size pack_mode
       ∧ concat groups = files)
    ∧ (_check_count_and_confirm (length files) pack_mode ans = false →
       groups = []).
Proof.
  intros E. unfold group_images. rewrite E. simpl.
  assert (0 < group_size pack_mode) as Hpos.
  { unfold group_size. destruct (String.eqb _ _); lia. }
  destruct (Nat.eqb_spec (length files) 0) as [H0|H0].
  { exists []. split; [done|]. split; [constructor|].
    split; [|done]. intros _. rewrite H0. split.
    - by rewrite Nat.Div0.div_0_l.
    - symmetry. by apply nil_length_inv. }
  pose proof (check_count_spec (length files) pack_mode ans) as Hspec.
  destruct (_check_count_and_confirm (length files) pack_mode ans) eqn:Hc;
    simpl.
  - destruct (proj1 Hspec eq_refl) as (_ & Hm & _).
    apply Nat.Div0.div_exact in Hm.
    destruct (collect_exact (group_size pack_mode)
                (length files / group_size pack_mode) files Hpos)
      as (Hall & Hlen & Hcat); [lia|].
    eexists. split; [reflexivity|].
    split; [exact Hall|]. split; [|done]. intros _. split; [exact Hlen|exact Hcat].
  - exists []. split; [done|]. split; [constructor|]. done.
Qed.


End Grouping.


Example group_images_confirmed :
  group_images ["IMG_10.jpg"; "IMG_2.jpg"; "notes.txt"; "IMG_1.jpg"; "IMG_3.JPG"]
    "1PACK" true
  = Ok [["IMG_1.jpg"; "IMG_2.jpg"]; ["IMG_3.JPG"; "IMG_10.jpg"]].
Proof. reflexivity. Qed.

(** A file whose name starts with the superscript two (U+00B2): the run
    before the digit 1 passes [isdigit] and [int] raises. *)
Example group_images_superscript :
  let name := String (ascii_of_N 178) "1.jpg" in
  re_split_digits name = [String (ascii_of_N 178) ""; "1"; ".jpg"]
  ∧ key_fails name = true
  ∧ _natural_sort_key name = Raise ValueError
  ∧ group_images ["IMG_1.jpg"; name] "1PACK" true = Raise ValueError.
Proof. repeat split. Qed.

Example natural_sort_key_example :
  _natural_sort_key "IMG_10.jpg" = Ok [TStr "img_"; TInt 10; TStr ".jpg"].
Proof. reflexivity. Qed.

(** C10: sorting IMG_2.jpg, IMG_10.jpg, IMG_1.jpg by the natural-sort key
    yields IMG_1.jpg, IMG_2.jpg, IMG_10.jpg. *)
Theorem natural_sort_example :
  sort _natural_sort_key ["IMG_2.jpg"; "IMG_10.jpg"; "IMG_1.jpg"]
  = Ok ["IMG_1.jpg"; "IMG_2.jpg"; "IMG_10.jpg"]
  ∧ list_images ["IMG_2.jpg"; "IMG_10.jpg"; "IMG_1.jpg"]
    = Ok ["IMG_1.jpg"; "IMG_2.jpg"; "IMG_10.jpg"].
Proof. split; reflexivity. Qed.

(** ** Names *)

Lemma append_assoc (a b c : string) : (a +:+ b) +:+ c = a +:+ (b +:+ c).
Proof.
  induction a as [|x a IH]; [done|].
  change (String x ((a +:+ b) +:+ c) = String x (a +:+ (b +:+ c))).
  by rewrite IH.
Qed.

Example suffix_examples :
  Path.suffix "IMG_1.jpg" = ".jpg" ∧ Path.suffix "a.tar.gz" = ".gz"
  ∧ Path.suffix ".hidden" = "" ∧ Path.suffix "noext" = ""
  ∧ Path.suffix "trailing." = "".
Proof. repeat split. Qed.

(** C6: in 1PACK mode the two new names of set SN are
    "{SN}. {id}-{lot} ({tag1}){suffix1}" and
    "{SN}. {id}-{lot} ({tag1})-1{suffix2}", the suffixes being those of
    the two original files; for SN 3, id 2511, lot NSH-2511-1077, tag1
    NSH-2511-10762 and two .jpg files these are
    "3. 2511-NSH-2511-1077 (NSH-2511-10762).jpg" and
    "3. 2511-NSH-2511-1077 (NSH-2511-10762)-1.jpg". *)
Theorem onepack_names :
  (∀ sn st p1 p2 rest,
     new_names "1PACK" (p1 :: p2 :: rest) sn st
     = Ok [ String.concat ""
              [Str.of_Z sn; ". "; id_val st; "-"; lot st; " ("; tag1 st; ")";
               Path.suffix p1];
            String.concat ""
              [Str.of_Z sn; ". "; id_val st; "-"; lot st; " ("; tag1 st; ")-1";
               Path.suffix p2] ])
  ∧ new_names "1PACK" ["IMG_5.jpg"; "IMG_6.jpg"] 3
      {| id_val := "2511"; lot := "NSH-2511-1077"; tag1 := "NSH-2511-10762";
         tag2 := ""; needs_inspection := false |}
    = Ok [ "3. 2511-NSH-2511-1077 (NSH-2511-10762).jpg";
           "3. 2511-NSH-2511-1077 (NSH-2511-10762)-1.jpg" ].
Proof.
  split; [|reflexivity].
  intros sn st p1 p2 rest. unfold new_names. simpl.
  rewrite !append_assoc. reflexivity.
Qed.

(** The copy-based variant sanitizes the base of each name, which removes
    its spaces. *)
Example process_step2_names_example :
  process_step2_names_pair2 "3" "2511" "NSH-2511-1077" "NSH-2511-10762"
    "IMG_5.jpg" "IMG_6.jpg"
  = [ "3.2511-NSH-2511-1077(NSH-2511-10762).jpg";
      "3.2511-NSH-2511-1077(NSH-2511-10762)-1.jpg" ].
Proof. reflexivity. Qed.

(** ** Sanitization *)

Section Strip.
Variable p : ascii → bool.

Lemma lstrip_length l : length (Chars.lstrip p l) ≤ length l.
Proof.
  induction l as [|c l IH]; simpl; [done|]. destruct (p c); simpl; lia.
Qed.

Lemma lstrip_Forall (P : ascii → Prop) l :
  Forall P l → Forall P (Chars.lstrip p l).
Proof.
  induction 1 as [|c l Hc Hl IH]; simpl; [done|].
  destruct (p c); by try constructor.
Qed.

Lemma lstrip_none l : Forall (λ c, p c = false) l → Chars.lstrip p l = l.
Proof. intros [|c l' Hc _]; simpl; [done|]. by rewrite Hc. Qed.

Lemma lstrip_head c l : Chars.lstrip p (c :: l) = c :: l → p c = false.
Proof.
  simpl. destruct (p c); [|done]. intros E.
  pose proof (lstrip_length l) as Hlen. rewrite E in Hlen. simpl in Hlen. lia.
Qed.

Lemma lstrip_idem l : Chars.lstrip p (Chars.lstrip p l) = Chars.lstrip p l.
Proof.
  induction l as [|c l IH]; simpl; [done|].
  destruct (p c) eqn:Hc; [done|]. simpl. by rewrite Hc.
Qed.

(** A kept last character shields nothing before it. *)
Lemma lstrip_snoc l c :
  p c = false → Chars.lstrip p (l ++ [c]) = Chars.lstrip p l ++ [c].
Proof.
  intros Hc. induction l as [|x l IH]; simpl; [by rewrite Hc|].
  by destruct (p x).
Qed.

Lemma rstrip_length l : length (Chars.rstrip p l) ≤ length l.
Proof.
  unfold Chars.rstrip. rewrite length_rev.
  etrans; [apply lstrip_length|]. by rewrite length_rev.
Qed.

Lemma rstrip_Forall (P : ascii → Prop) l :
  Forall P l → Forall P (Chars.rstrip p l).
Proof.
  intros H. unfold Chars.rstrip.
  by apply List.Forall_rev, lstrip_Forall, List.Forall_rev.
Qed.

Lemma rstrip_none l : Forall (λ c, p c = false) l → Chars.rstrip p l = l.
Proof.
  intros H. unfold Chars.rstrip. rewrite lstrip_none; [apply rev_involutive|].
  by apply List.Forall_rev.
Qed.

Lemma rstrip_idem l : Chars.rstrip p (Chars.rstrip p l) = Chars.rstrip p l.
Proof. unfold Chars.rstrip. by rewrite rev_involutive, lstrip_idem. Qed.

Lemma rstrip_cons c l :
  p c = false → Chars.rstrip p (c :: l) = c :: Chars.rstrip p l.
Proof.
  intros Hc. unfold Chars.rstrip. simpl.
  by rewrite lstrip_snoc, rev_app_distr.
Qed.

Lemma lstrip_rstrip l :
  Chars.lstrip p l = l → Chars.lstrip p (Chars.rstrip p l) = Chars.rstrip p l.
Proof.
  destruct l as [|c l]; [done|]. intros Hc%lstrip_head.
  rewrite rstrip_cons by done. simpl. by rewrite Hc.
Qed.

Lemma strip_length l : length (Chars.strip p l) ≤ length l.
Proof.
  unfold Chars.strip. etrans; [apply rstrip_length|apply lstrip_length].
Qed.

Lemma strip_Forall (P : ascii → Prop) l :
  Forall P l → Forall P (Chars.strip p l).
Proof. intros H. by apply rstrip_Forall, lstrip_Forall. Qed.

Lemma strip_none l : Forall (λ c, p c = false) l → Chars.strip p l = l.
Proof. intros H. unfold Chars.strip. by rewrite lstrip_none, rstrip_none. Qed.

Lemma strip_idem l : Chars.strip p (Chars.strip p l) = Chars.strip p l.
Proof.
  unfold Chars.strip.
  rewrite (lstrip_rstrip (Chars.lstrip p l)) by apply lstrip_idem.
  apply rstrip_idem.
Qed.

End Strip.

Section Sanitize.

Lemma collapse_none l :
  Forall (λ c, Str.is_space c = false) l → Chars.collapse_spaces l = l.
Proof. induction 1 as [|c l Hc _ IH]; simpl; [done|]. by rewrite Hc, IH. Qed.

Lemma map_forbidden_clean l :
  Forall (λ c, Str.is_space c = false) l →
  Forall clean (List.map (λ c, if forbidden c then "_"%char else c) l).
Proof.
  induction 1 as [|c l Hc _ IH]; simpl; constructor; [|done].
  destruct (forbidden c) eqn:Hf; by split.
Qed.

Lemma map_forbidden_none l :
  Forall (λ c, forbidden c = false) l →
  List.map (λ c, if forbidden c then "_"%char else c) l = l.
Proof. induction 1 as [|c l Hc _ IH]; simpl; [done|]. by rewrite Hc, IH. Qed.

Lemma filter_length {B} (q : B → bool) l : length (List.filter q l) ≤ length l.
Proof. induction l as [|x l IH]; simpl; [done|]. destruct (q x); simpl; lia. Qed.

Lemma space_is_space c : Ascii.eqb c " " = true → Str.is_space c = true.
Proof. by intros ->%Ascii.eqb_eq. Qed.

(** A clean text that [strip(" .")] leaves alone and that fits the length
    limit is a fixed point. *)
Lemma sanitize_chars_fixed r :
  Forall clean r →
  Chars.strip (λ c, Ascii.eqb c " " || Ascii.eqb c ".") r = r →
  length r ≤ 180 →
  sanitize_chars r = r.
Proof.
  intros Hclean Hstrip Hlen. unfold sanitize_chars, normalize_NFC.
  assert (Forall (λ c, Str.is_space c = false) r) as Hsp
    by (eapply Forall_impl; [exact Hclean|by intros c [? _]]).
  rewrite (strip_none _ r Hsp).
  rewrite filter_all.
  2:{ eapply Forall_impl; [exact Hsp|]. intros c Hc. simpl.
      destruct (Ascii.eqb c " ") eqn:E; [|done].
      apply space_is_space in E. congruence. }
  rewrite map_forbidden_none
    by (eapply Forall_impl; [exact Hclean|by intros c [_ ?]]).
  rewrite collapse_none by done. rewrite Hstrip.
  by apply take_ge.
Qed.

(** What [sanitize_chars] returns for a text of at most 180 characters
    whose only whitespace is the plain space. *)
Lemma sanitize_chars_short s :
  Forall (λ c, Str.is_space c = true → c = " "%char) s →
  length s ≤ 180 →
  let r := sanitize_chars s in
  Forall clean r
  ∧ Chars.strip (λ c, Ascii.eqb c " " || Ascii.eqb c ".") r = r
  ∧ length r ≤ 180.
Proof.
  intros Hs Hlen. cbv zeta. unfold sanitize_chars, normalize_NFC.
  set (a1 := Chars.strip Str.is_space s).
  set (a2 := List.filter (λ c, negb (Ascii.eqb c " ")) a1).
  set (a3 := List.map (λ c, if forbidden c then "_"%char else c) a2).
  assert (Forall (λ c, Str.is_space c = false) a2) as H2.
  { assert (Forall (λ c, Str.is_space c = true → c = " "%char) a1) as H1
      by by apply strip_Forall.
    rewrite List.Forall_forall in H1. apply List.Forall_forall.
    intros c [Hin Hne]%filter_In. specialize (H1 c Hin).
    destruct (Str.is_space c); [|done].
    rewrite H1 in Hne by done. done. }
  assert (Forall clean a3) as H3 by by apply map_forbidden_clean.
  rewrite collapse_none
    by (eapply Forall_impl; [exact H3|by intros c [? _]]).
  assert (length a3 ≤ 180) as Hl3.
  { unfold a3. rewrite length_map. unfold a2.
    etrans; [apply filter_length|]. etrans; [apply strip_length|done]. }
  rewrite take_ge by (etrans; [apply strip_length|done]).
  split; [by apply strip_Forall|]. split; [apply strip_idem|].
  etrans; [apply strip_length|done].
Qed.

Lemma length_list_ascii_of_string s :
  length (list_ascii_of_string s) = String.length s.
Proof. induction s as [|c s IH]; simpl; [done|]. by rewrite IH. Qed.

Lemma all_Forall q s :
  Str.all q s = true → Forall (λ c, q c = true) (list_ascii_of_string s).
Proof.
  induction s as [|c s IH]; simpl; [by constructor|].
  intros [Hc Hs]%andb_true_iff. constructor; [done|by apply IH].
Qed.

(** C7 (amended): for every name of code points below 256 (which NFC
    normalization leaves as they are) that has at most 180 characters
    and whose only whitespace characters are plain spaces, sanitizing
    twice gives the same result as sanitizing once. *)
Theorem sanitize_idempotent_short name :
  only_plain_spaces name = true →
  String.length name ≤ 180 →
  sanitize (sanitize name) = sanitize name.
Proof.
  intros Hs Hlen. unfold sanitize.
  rewrite list_ascii_of_string_of_list_ascii. f_equal.
  destruct (sanitize_chars_short (list_ascii_of_string name))
    as (Hclean & Hstrip & Hl).
  - eapply Forall_impl; [exact (all_Forall _ _ Hs)|].
    intros c Hc Hsp. simpl in Hc. rewrite Hsp in Hc.
    by apply Ascii.eqb_eq in Hc.
  - by rewrite length_list_ascii_of_string.
  - by apply sanitize_chars_fixed.
Qed.

End Sanitize.

Lemma sanitize_idempotent_short_witness :
  only_plain_spaces " ..lot 7<a>?.. " = true
  ∧ String.length " ..lot 7<a>?.. " ≤ 180
  ∧ sanitize (sanitize " ..lot 7<a>?.. ") = sanitize " ..lot 7<a>?.. ".
Proof.
  split; [reflexivity|]. split; [simpl; lia|].
  apply (sanitize_idempotent_short " ..lot 7<a>?.. "); [reflexivity|simpl; lia].
Defined.

Example sanitize_example : sanitize " ..lot 7<a>?.. " = "lot7_a__".
Proof. reflexivity. Qed.

(** C7, as stated, fails: a tab inside the name becomes a space in the
    first pass, after the spaces have been removed, and the second pass
    removes it: sanitize gives "a b", sanitize of that gives "ab". *)
Lemma sanitize_not_idempotent :
  sanitize (String "a" (String "009" "b")) = "a b"
  ∧ sanitize (sanitize (String "a" (String "009" "b"))) = "ab"
  ∧ sanitize (sanitize (String "a" (String "009" "b")))
    ≠ sanitize (String "a" (String "009" "b")).
Proof. vm_compute. repeat split. discriminate. Qed.

(** The cut at 180 characters can leave a dot at the end, which the
    second pass strips. *)
Example sanitize_cut_not_fixed :
  let name := string_of_list_ascii (replicate 179 "a"%char ++ [" "; "."; "b"]%char) in
  String.length (sanitize name) = 180
  ∧ String.length (sanitize (sanitize name)) = 179.
Proof. vm_compute. done. Qed.

(** ** The result table *)

Section Template.

(** The table for [n] sets, [n] being positive. *)
Lemma create_excel_template_rows num_sets container_name :
  let n := if (num_sets <=? 0)%Z then 1%Z else num_sets in
  let blank := astype_str (replicate (Z.to_nat n) (CStr "")) in
  create_excel_template num_sets container_name
  = [ ("순번", CInt <$> seqZ 1 n);
      ("컨테이너 No",
       astype_str (replicate (Z.to_nat n)
                     (CStr (default EmptyString container_name))));
      ("품명", blank); ("Ton Bag No1", blank); ("Lot No1", blank);
      ("Ton Bag No2", blank); ("Lot No2", blank); ("ID1", blank);
      ("Lot1", blank); ("Tag1", blank); ("ID2", blank); ("Lot2", blank);
      ("Tag2", blank); ("검수 필요", blank) ].
Proof. reflexivity. Qed.

Lemma astype_str_replicate k s :
  astype_str (replicate k (CStr s)) = replicate k (CStr s).
Proof. unfold astype_str. by rewrite fmap_replicate. Qed.

Lemma replicate_is_str k s :
  Forall (λ c, is_str c = true) (replicate k (CStr s)).
Proof. induction k; simpl; by constructor. Qed.

(** C8 (amended): for every requested number of sets N and container
    name, the table has the fourteen columns in the specified order and
    max(1, N) rows: N rows when N is at least 1, one row when N is 0 or
    negative; the SN column is 1..max(1, N) in order and every other
    column holds strings. *)
Theorem create_excel_template_shape num_sets container_name :
  let df := create_excel_template num_sets container_name in
  let n := Z.max 1 num_sets in
  df_columns df
  = [ "순번"; "컨테이너 No"; "품명"; "Ton Bag No1"; "Lot No1"; "Ton Bag No2";
      "Lot No2"; "ID1"; "Lot1"; "Tag1"; "ID2"; "Lot2"; "Tag2"; "검수 필요" ]
  ∧ length (df_columns df) = 14
  ∧ df_len df = Z.to_nat n
  ∧ Forall (λ cv, length cv.2 = Z.to_nat n) df
  ∧ df_col df "순번" = Some (CInt <$> seqZ 1 n)
  ∧ Forall (λ cv, cv.1 ≠ "순번" → Forall (λ c, is_str c = true) cv.2) df.
Proof.
  cbv zeta. rewrite create_excel_template_rows. cbv zeta.
  rewrite !astype_str_replicate.
  assert ((if (num_sets <=? 0)%Z then 1%Z else num_sets) = Z.max 1 num_sets)
    as -> by (destruct (Z.leb_spec num_sets 0); lia).
  set (n := Z.max 1 num_sets).
  assert (length (CInt <$> seqZ 1 n) = Z.to_nat n) as Hsn
    by by rewrite length_fmap, length_seqZ.
  split; [done|]. split; [done|]. split; [exact Hsn|].
  split.
  { repeat (constructor; [first [exact Hsn|apply length_replicate]|]).
    constructor. }
  split; [done|].
  repeat (constructor; [first [done|intros _; apply replicate_is_str]|]).
  constructor.
Qed.

End Template.

(** C8, as stated, fails: asked for 0 sets, the template has one row. *)
Lemma create_excel_template_zero :
  df_len (create_excel_template 0 (Some "MSCU1234567")) = 1
  ∧ df_len (create_excel_template 0 (Some "MSCU1234567")) ≠ Z.to_nat 0
  ∧ df_col (create_excel_template 0 (Some "MSCU1234567")) "순번"
    = Some [CInt 1].
Proof. vm_compute. repeat split. discriminate. Qed.

Example create_excel_template_two :
  create_excel_template 2 (Some "C1")
  = [ ("순번", [CInt 1; CInt 2]); ("컨테이너 No", [CStr "C1"; CStr "C1"]);
      ("품명", [CStr ""; CStr ""]); ("Ton Bag No1", [CStr ""; CStr ""]);
      ("Lot No1", [CStr ""; CStr ""]); ("Ton Bag No2", [CStr ""; CStr ""]);
      ("Lot No2", [CStr ""; CStr ""]); ("ID1", [CStr ""; CStr ""]);
      ("Lot1", [CStr ""; CStr ""]); ("Tag1", [CStr ""; CStr ""]);
      ("ID2", [CStr ""; CStr ""]); ("Lot2", [CStr ""; CStr ""]);
      ("Tag2", [CStr ""; CStr ""]); ("검수 필요", [CStr ""; CStr ""]) ].
Proof. reflexivity. Qed.

(** ** The report *)

Section Report.

(** Counting the missing values of a column never succeeds: converting
    the mask to [int] fails unless it has one element, and then the
    attribute lookup on the [int] fails. *)
Lemma count_missing_raises col : ∃ e, count_missing col = Raise e.
Proof.
  unfold count_missing. destruct col as [|v [|w col]]; simpl; eauto.
Qed.

Lemma count_into_raises df col missing :
  is_Some (df_col df col) → ∃ e, count_into df col true missing = Raise e.
Proof.
  intros [v Hv]. unfold count_into. rewrite Hv.
  destruct (count_missing_raises v) as [e ->]. simpl. eauto.
Qed.

(** No report is produced for a table that has an ID1 column. *)
Lemma generate_report_raises df folder pack_mode image_count excel_path :
  is_Some (df_col df "ID1") →
  ∃ e, generate_report df folder pack_mode image_count excel_path = Raise e.
Proof.
  intros H. unfold generate_report, _count_missing_fields.
  destruct (count_into_raises df "ID1"
              {[ "ID1" := 0%Z; "Lot1" := 0%Z; "Tag1" := 0%Z; "Tag2" := 0%Z ]} H)
    as [e He].
  destruct (String.eqb pack_mode "1PACK"); rewrite He; simpl; eauto.
Qed.

Lemma generate_report_raises_on_template num_sets container_name folder
    pack_mode image_count excel_path :
  ∃ e, generate_report (create_excel_template num_sets container_name)
         folder pack_mode image_count excel_path = Raise e.
Proof.
  apply generate_report_raises.
  rewrite create_excel_template_rows. simpl. eauto.
Qed.

(** When a report is produced (the table has none of the counted
    columns), its expected count is the number of rows times the group
    size and the difference it shows is actual minus expected. *)
Lemma generate_report_counts df folder pack_mode image_count excel_path r :
  generate_report df folder pack_mode image_count excel_path = Ok r →
  r_num_sets r = df_len df
  ∧ r_expected_images r
    = (Z.of_nat (df_len df) * Z.of_nat (group_size pack_mode))%Z
  ∧ r_image_count r = image_count
  ∧ r_diff r
    = (if (image_count - r_expected_images r =? 0)%Z then None
       else Some (image_count - r_expected_images r)%Z).
Proof.
  unfold generate_report, group_size.
  destruct (String.eqb pack_mode "1PACK");
    destruct (_count_missing_fields df pack_mode) as [missing|e]; simpl;
    try discriminate; by intros [= <-].
Qed.

End Report.

(** C9: the report generator does not produce a report for the tables of
    this pipeline. On the table built for one set it raises
    AttributeError (the missing-value count calls [sum] on an [int]), on
    the table built for twenty sets it raises TypeError (a series of
    twenty values is converted to [int]); the expected count and the
    difference are never reported. *)
Theorem generate_report_fails :
  generate_report (create_excel_template 1 (Some "MSCU1234567"))
    "C:/photos" "1PACK" 2 None
  = Raise AttributeError
  ∧ generate_report (create_excel_template 20 (Some "MSCU1234567"))
      "C:/photos" "1PACK" 40 None
    = Raise TypeError.
Proof. split; vm_compute; reflexivity. Qed.

Example generate_report_without_fields :
  r_diff <$> (match generate_report
                      [("순번", [CInt 1; CInt 2])] "C:/photos" "2PACK" 5 None
              with Ok r => Some r | Raise _ => None end)
  = Some (Some (-1)%Z).
Proof. reflexivity. Qed.

(** * Further properties *)

(** ** The extractor and the names built from it *)

Section ExtractorMore.

Lemma match_at_self p t m :
  Re.match_at p t = Some m → Re.match_at p m = Some m.
Proof.
  revert t m. induction p as [|a p IH]; intros t m H.
  - by apply match_at_nil in H as ->.
  - apply match_at_cons in H as (c & t' & m' & -> & -> & Ha & Hm).
    simpl. rewrite Ha. by rewrite (IH _ _ Hm).
Qed.

Lemma search_self p t m : Re.search p t = Some m → Re.match_at p m = Some m.
Proof. intros (t' & H)%search_match. by eapply match_at_self. Qed.

Lemma length_4_nonempty s : String.length s = 4 → s ≠ EmptyString.
Proof. by destruct s. Qed.

(** What [extract_id_lot_tag] returns, by the two searches. *)
Lemma extract_cases text :
  (extract_id_lot_tag text = Ok (EmptyString, EmptyString, EmptyString))
  ∨ (∃ i l, extract_id_lot_tag text = Ok (i, l, EmptyString)
            ∧ Re.match_at PATTERN_FULL l = Some l
            ∧ index (Str.split "-" l) 1 = Ok i ∧ String.length i = 4)
  ∨ (∃ i l t, extract_id_lot_tag text = Ok (i, l, t)
              ∧ Re.match_at PATTERN_FULL l = Some l
              ∧ Re.match_at PATTERN_TAG t = Some t
              ∧ index (Str.split "-" t) 1 = Ok i ∧ String.length i = 4).
Proof.
  destruct (negb (Str.truthy text)) eqn:Hn.
  { left. unfold extract_id_lot_tag. by rewrite Hn. }
  destruct (Re.search PATTERN_TAG (Str.upper text)) as [m|] eqn:Ht.
  - right. right.
    assert (is_Some (Re.search PATTERN_FULL (Str.upper text))) as [m' Hl].
    { apply (search_prefix PATTERN_FULL [Re.D]).
      change (PATTERN_FULL ++ [Re.D]) with PATTERN_TAG. rewrite Ht. eauto. }
    pose proof (search_self _ _ _ Ht) as Hm.
    destruct (tag_middle _ _ Hm) as (j & Hj & Hlen).
    exists j, m', m. split.
    { unfold extract_id_lot_tag. by rewrite Hn, Ht, Hl, Hj. }
    split; [by eapply search_self|]. done.
  - destruct (Re.search PATTERN_FULL (Str.upper text)) as [m|] eqn:Hl.
    + right. left. pose proof (search_self _ _ _ Hl) as Hm.
      destruct (lot_middle _ _ Hm) as (j & Hj & Hlen).
      exists j, m. split; [|done].
      unfold extract_id_lot_tag. by rewrite Hn, Ht, Hl, Hj.
    + left. unfold extract_id_lot_tag. by rewrite Hn, Ht, Hl.
Qed.

(** X1: extract_id_lot_tag never raises. The tag it returns is empty or
    a text the TAG pattern matches entirely, the lot is empty or a text
    the LOT pattern matches entirely; the id is the second dash-separated
    segment of the tag when there is a tag, else of the lot, and has four
    characters; the id is empty exactly when the lot is empty, and a
    non-empty tag always comes with a non-empty lot. *)
Theorem extract_id_lot_tag_shape text :
  ∃ i l t,
    extract_id_lot_tag text = Ok (i, l, t)
    ∧ (t = EmptyString ∨ Re.match_at PATTERN_TAG t = Some t)
    ∧ (l = EmptyString ∨ Re.match_at PATTERN_FULL l = Some l)
    ∧ (t ≠ EmptyString → index (Str.split "-" t) 1 = Ok i)
    ∧ (t = EmptyString → l ≠ EmptyString → index (Str.split "-" l) 1 = Ok i)
    ∧ (l ≠ EmptyString → String.length i = 4)
    ∧ (i = EmptyString ↔ l = EmptyString)
    ∧ (t ≠ EmptyString → l ≠ EmptyString).
Proof.
  destruct (extract_cases text)
    as [E|[(i & l & E & Hl & Hi & Hlen)|(i & l & t & E & Hl & Ht & Hi & Hlen)]].
  - exists EmptyString, EmptyString, EmptyString. repeat split; eauto; done.
  - assert (l ≠ EmptyString) as Hne by by eapply match_nonempty.
    pose proof (length_4_nonempty _ Hlen).
    exists i, l, EmptyString. split; [done|]. split; [by left|].
    split; [by right|]. do 3 (split; [done|]). split; [|done].
    split; intros; done.
  - assert (l ≠ EmptyString) as Hnl by by eapply match_nonempty.
    assert (t ≠ EmptyString) as Hnt by by eapply match_nonempty.
    pose proof (length_4_nonempty _ Hlen).
    exists i, l, t. split; [done|]. split; [by right|]. split; [by right|].
    do 3 (split; [done|]). split; [|done]. split; intros; done.
Qed.

Lemma char_upper_idem c : Str.char_upper (Str.char_upper c) = Str.char_upper c.
Proof. destruct c as [[] [] [] [] [] [] [] []]; reflexivity. Qed.

Lemma char_upper_lower c : Str.char_upper (Str.char_lower c) = Str.char_upper c.
Proof. destruct c as [[] [] [] [] [] [] [] []]; reflexivity. Qed.

Lemma map_map f g s : Str.map f (Str.map g s) = Str.map (λ c, f (g c)) s.
Proof. induction s as [|c s IH]; simpl; [done|]. by rewrite IH. Qed.

Lemma map_ext f g s : (∀ c, f c = g c) → Str.map f s = Str.map g s.
Proof. intros H. induction s as [|c s IH]; simpl; [done|]. by rewrite H, IH. Qed.

Lemma truthy_map f s : Str.truthy (Str.map f s) = Str.truthy s.
Proof. by destruct s. Qed.

(** X2: the extraction ignores the case of the text: the upper-cased and
    the lower-cased text give the same id, lot and tag as the text. *)
Theorem extract_id_lot_tag_case text :
  extract_id_lot_tag (Str.upper text) = extract_id_lot_tag text
  ∧ extract_id_lot_tag (Str.lower text) = extract_id_lot_tag text.
Proof.
  unfold extract_id_lot_tag, Str.upper, Str.lower.
  rewrite !truthy_map, !map_map.
  rewrite (map_ext _ Str.char_upper text char_upper_idem).
  by rewrite (map_ext (λ c, Str.char_upper (Str.char_lower c))
                Str.char_upper text char_upper_lower).
Qed.

Lemma text_at_total texts i : ∃ txt, text_at texts i = Ok txt.
Proof.
  unfold text_at, index. destruct (Nat.ltb_spec i (length texts)); [|by eauto].
  destruct (lookup_lt_is_Some_2 texts i) as [x ->]; eauto.
Qed.

Lemma extract_id_iff_lot text i l t :
  extract_id_lot_tag text = Ok (i, l, t) →
  (i = EmptyString ↔ l = EmptyString) ∧ (t ≠ EmptyString → l ≠ EmptyString).
Proof.
  intros E.
  destruct (extract_cases text)
    as [E'|[(i' & l' & E' & Hl & _ & Hlen)|(i' & l' & t' & E' & Hl & _ & _ & Hlen)]];
    rewrite E in E'; injection E' as -> -> ->.
  - done.
  - pose proof (length_4_nonempty _ Hlen).
    assert (l' ≠ EmptyString) by by eapply match_nonempty.
    split; [split; intros; done|done].
  - pose proof (length_4_nonempty _ Hlen).
    assert (l' ≠ EmptyString) by by eapply match_nonempty.
    split; [split; intros; done|done].
Qed.

(** X3: generate_names_2pack never raises, whatever the number of texts
    (a missing text counts as empty), returns the tags of the first and
    of the second text, and takes the id and the lot together from one
    text: from the first when it has a lot, else from the second; the
    names are built from these fields. *)
Theorem generate_names_2pack_consistent ocr_texts :
  ∃ txt1 txt2 id1 lot1 tag1 id2 lot2 tag2 id_val lot_val,
    text_at ocr_texts 0 = Ok txt1 ∧ text_at ocr_texts 1 = Ok txt2
    ∧ extract_id_lot_tag txt1 = Ok (id1, lot1, tag1)
    ∧ extract_id_lot_tag txt2 = Ok (id2, lot2, tag2)
    ∧ generate_names_2pack ocr_texts
      = Ok (id_val +:+ "-" +:+ lot_val +:+ " (" +:+ tag1 +:+ ").jpg",
            id_val +:+ "-" +:+ lot_val +:+ " (" +:+ tag2 +:+ ").jpg",
            id_val +:+ "-" +:+ lot_val +:+ " (" +:+ tag1 +:+ ", " +:+ tag2
              +:+ ").jpg",
            id_val, lot_val, tag1, tag2)
    ∧ (lot1 ≠ EmptyString → id_val = id1 ∧ lot_val = lot1)
    ∧ (lot1 = EmptyString → id_val = id2 ∧ lot_val = lot2).
Proof.
  destruct (text_at_total ocr_texts 0) as [txt1 E1].
  destruct (text_at_total ocr_texts 1) as [txt2 E2].
  destruct (extract_id_lot_tag_total txt1) as (id1 & lot1 & tag1 & X1).
  destruct (extract_id_lot_tag_total txt2) as (id2 & lot2 & tag2 & X2).
  exists txt1, txt2, id1, lot1, tag1, id2, lot2, tag2,
    (Str.or id1 id2), (Str.or lot1 lot2).
  do 4 (split; [done|]).
  split.
  { unfold generate_names_2pack. rewrite E1. simpl. rewrite E2. simpl.
    rewrite X1. simpl. by rewrite X2. }
  destruct (extract_id_iff_lot _ _ _ _ X1) as [Hiff _].
  split.
  - intros Hl. assert (id1 ≠ EmptyString) by (intros ?; by apply Hl, Hiff).
    by rewrite !or_nonempty.
  - intros ->. by rewrite (proj2 Hiff eq_refl).
Qed.

End ExtractorMore.

(** ** Normalized codes *)

Section Normalize.

Lemma all_filter p s : Str.all p (Text.filter p s) = true.
Proof.
  induction s as [|c s IH]; simpl; [done|].
  destruct (p c) eqn:Hc; simpl; by rewrite ?Hc.
Qed.

Lemma filter_id_on p q s :
  Str.all p s = true → (∀ c, p c = true → q c = true) → Text.filter q s = s.
Proof.
  intros Hs Hpq. induction s as [|c s IH]; simpl in *; [done|].
  apply andb_true_iff in Hs as [Hc Hs]. by rewrite (Hpq c Hc), IH.
Qed.

Lemma map_id_on p f s :
  Str.all p s = true → (∀ c, p c = true → f c = c) → Str.map f s = s.
Proof.
  intros Hs Hf. induction s as [|c s IH]; simpl in *; [done|].
  apply andb_true_iff in Hs as [Hc Hs]. by rewrite (Hf c Hc), IH.
Qed.

Lemma code_char_facts c :
  code_char c = true →
  Str.char_upper c = c ∧ negb (Ascii.eqb c " ") = true
  ∧ (if Ascii.eqb c "_" then "-"%char else c) = c.
Proof. destruct c as [[] [] [] [] [] [] [] []]; vm_compute; done. Qed.

(** A code is left as it is. *)
Lemma normalize_code_fixed s : is_code s = true → normalize_code s = s.
Proof.
  intros Hs. unfold normalize_code. destruct s as [|c s]; [done|].
  cbn [Str.truthy negb]. unfold Str.upper.
  rewrite (map_id_on code_char _ _ Hs) by (intros ? ?; by apply code_char_facts).
  rewrite (filter_id_on code_char _ _ Hs)
    by (intros ? ?; by apply code_char_facts).
  rewrite (map_id_on code_char _ _ Hs) by (intros ? ?; by apply code_char_facts).
  by apply (filter_id_on code_char).
Qed.

Lemma normalize_code_is_code text : is_code (normalize_code text) = true.
Proof.
  unfold normalize_code. destruct (negb (Str.truthy text)); [done|].
  apply all_filter.
Qed.

(** X4: normalize_code returns only the characters A-Z, 0-9 and the
    dash, and normalizing a second time changes nothing. *)
Theorem normalize_code_idempotent text :
  is_code (normalize_code text) = true
  ∧ normalize_code (normalize_code text) = normalize_code text.
Proof.
  split; [apply normalize_code_is_code|].
  apply normalize_code_fixed, normalize_code_is_code.
Qed.

Lemma match_at_all q p t m :
  Forall (λ a, ∀ c, Re.atom_matches a c = true → q c = true) p →
  Re.match_at p t = Some m → Str.all q m = true.
Proof.
  intros Hp. revert t m. induction Hp as [|a p Ha _ IH]; intros t m H.
  - by apply match_at_nil in H as ->.
  - apply match_at_cons in H as (c & t' & m' & -> & -> & Hc & Hm).
    simpl. by rewrite (Ha c Hc), (IH _ _ Hm).
Qed.

Lemma atom_code a :
  a = Re.AZ ∨ a = Re.D ∨ a = Re.Ch "-" →
  ∀ c, Re.atom_matches a c = true → code_char c = true.
Proof.
  intros [-> | [-> | ->]] c; simpl; unfold code_char; intros ->;
    by rewrite ?orb_true_r.
Qed.

Lemma lot_is_code t m :
  Re.match_at PATTERN_FULL t = Some m → is_code m = true.
Proof.
  apply match_at_all. rewrite PATTERN_FULL_atoms.
  repeat (constructor; [apply atom_code; eauto|]). constructor.
Qed.

Lemma tag_is_code t m :
  Re.match_at PATTERN_TAG t = Some m → is_code m = true.
Proof.
  apply match_at_all. rewrite PATTERN_TAG_atoms.
  repeat (constructor; [apply atom_code; eauto|]). constructor.
Qed.

Lemma split_all q sep s :
  Str.all q s = true → Forall (λ x, Str.all q x = true) (Str.split sep s).
Proof.
  induction s as [|c s IH]; simpl; [by repeat constructor|].
  intros [Hc Hs]%andb_true_iff. specialize (IH Hs).
  destruct (Ascii.eqb c sep); [by constructor|].
  destruct (Str.split sep s) as [|h r]; [by repeat constructor; simpl; rewrite Hc|].
  inversion IH; subst. constructor; [|done]. simpl. by rewrite Hc.
Qed.

Lemma segment_is_code m i k :
  is_code m = true → index (Str.split "-" m) k = Ok i → is_code i = true.
Proof.
  intros Hm. unfold index.
  destruct (Str.split "-" m !! k) as [x|] eqn:E; [|done]. intros [= <-].
  pose proof (split_all code_char "-" m Hm) as Hall.
  rewrite Forall_lookup in Hall. by eapply Hall.
Qed.


End Normalize.

(** ** Worksheet cells *)

Section Cells.

Lemma strip_text_idem s : Text.strip (Text.strip s) = Text.strip s.
Proof.
  unfold Text.strip.
  by rewrite list_ascii_of_string_of_list_ascii, strip_idem.
Qed.

(** X6: _nz returns the default for an empty cell, for NaN, for a text
    that is blank once stripped and for the text "nan" in any case;
    every other value comes back as its stripped text, which is not
    empty and has no whitespace left at either end. *)
Theorem nz_cases x default :
  _nz None default = default
  ∧ _nz (Some NaN) default = default
  ∧ let raw :=
      Text.strip (match x with None => EmptyString | Some v => cell_str v end) in
    (_nz x default = default
     ∧ (raw = EmptyString ∨ Str.lower raw = "nan"))
    ∨ (_nz x default = raw ∧ raw ≠ EmptyString ∧ Str.lower raw ≠ "nan"
       ∧ Text.strip raw = raw).
Proof.
  split; [done|]. split; [done|]. cbv zeta. unfold _nz.
  set (raw := Text.strip _).
  destruct (String.eqb_spec (Str.lower raw) "nan") as [Hn|Hn]; simpl.
  - left. eauto.
  - destruct raw as [|c r] eqn:Hr; simpl; [left; eauto|].
    right. repeat split; try done.
    rewrite <- Hr. apply strip_text_idem.
Qed.

Example nz_examples :
  _nz (Some (CStr "  NSH-2511-1077 ")) "NO_LOT" = "NSH-2511-1077"
  ∧ _nz (Some (CStr "   ")) "NO_LOT" = "NO_LOT"
  ∧ _nz (Some (CStr " NaN ")) "NO_LOT" = "NO_LOT"
  ∧ _nz (Some (CInt 12)) "NO_SN" = "12".
Proof. repeat split. Qed.

End Cells.

(** ** Free names and copies *)

Section Unique.

Lemma to_int_not_nil z : Z.to_int z ≠ Decimal.Pos Decimal.Nil
                         ∧ Z.to_int z ≠ Decimal.Neg Decimal.Nil.
Proof.
  destruct z as [|p|p]; simpl; split; try done;
    intros [= H]; by apply DecimalPos.Unsigned.to_uint_nonnil in H.
Qed.

(** Different integers are written differently. *)
Lemma of_Z_inj a b : Str.of_Z a = Str.of_Z b → a = b.
Proof.
  unfold Str.of_Z. intros H. apply DecimalZ.to_int_inj.
  apply (f_equal NilZero.int_of_string) in H.
  destruct (to_int_not_nil a), (to_int_not_nil b).
  rewrite !NilZero.isi in H by done. by injection H.
Qed.

Lemma append_inj_l b x y : b +:+ x = b +:+ y → x = y.
Proof.
  induction b as [|c b IH]; [done|].
  change (String c (b +:+ x) = String c (b +:+ y) → x = y).
  intros [= H]. by apply IH.
Qed.

Lemma list_of_append x y :
  list_ascii_of_string (x +:+ y)
  = list_ascii_of_string x ++ list_ascii_of_string y.
Proof.
  induction x as [|c x IH]; [done|].
  change (c :: list_ascii_of_string (x +:+ y)
          = c :: (list_ascii_of_string x ++ list_ascii_of_string y)).
  by rewrite IH.
Qed.

Lemma append_inj_r x y e : x +:+ e = y +:+ e → x = y.
Proof.
  intros H. apply (f_equal list_ascii_of_string) in H.
  rewrite !list_of_append in H. apply app_inv_tail in H.
  apply (f_equal string_of_list_ascii) in H.
  by rewrite !string_of_list_ascii_of_string in H.
Qed.

Lemma candidate_inj b e i j : candidate b e i = candidate b e j → i = j.
Proof.
  unfold candidate. intros H%append_inj_l.
  change (String "_" (Str.of_Z (Z.of_nat i) +:+ e)
          = String "_" (Str.of_Z (Z.of_nat j) +:+ e)) in H.
  injection H as H. apply append_inj_r, of_Z_inj in H. lia.
Qed.

(** Among more candidates than there are names, one is free. *)
Lemma candidate_free (names : gset string) b e i n :
  size names < n → ∃ j, (i ≤ j < i + n) ∧ candidate b e j ∉ names.
Proof.
  intros Hsize.
  destruct (decide (Forall (λ j, candidate b e j ∈ names) (seq i n)))
    as [Hall|Hex].
  - exfalso.
    assert (NoDup (candidate b e <$> seq i n)) as Hnd.
    { apply NoDup_fmap_2; [|apply NoDup_seq].
      intros x y. apply candidate_inj. }
    assert ((list_to_set (candidate b e <$> seq i n) : gset string) ⊆ names)
      as Hsub.
    { intros c [j [-> Hj]]%elem_of_list_to_set%list_elem_of_fmap.
      rewrite Forall_forall in Hall. by apply Hall. }
    apply subseteq_size in Hsub.
    rewrite size_list_to_set, length_fmap, length_seq in Hsub by done. lia.
  - apply not_Forall_Exists in Hex; [|solve_decision].
    apply Exists_exists in Hex as (j & Hj%elem_of_seq & Hfree).
    exists j. split; [lia|done].
Qed.

Lemma first_free_spec (names : gset string) b e fuel i :
  (∃ j, (i ≤ j < i + fuel) ∧ candidate b e j ∉ names) →
  ∃ k, i ≤ k
       ∧ first_free names b e i fuel = Done (candidate b e k)
       ∧ (candidate b e k ∉ names)
       ∧ ∀ j, i ≤ j < k → candidate b e j ∈ names.
Proof.
  revert i. induction fuel as [|fuel IH]; intros i (j & Hj & Hfree); [lia|].
  simpl. case_bool_decide as Hin.
  - destruct (IH (i + 1)) as (k & Hk & E & Hf & Hbelow).
    { exists j. split; [|done].
      destruct (decide (j = i)) as [->|]; [done|lia]. }
    exists k. split; [lia|]. split; [done|]. split; [done|].
    intros j' Hj'. destruct (decide (j' = i)) as [->|]; [done|].
    apply Hbelow. lia.
  - exists i. split; [done|]. split; [done|]. split; [done|]. lia.
Qed.

Lemma ensure_unique_spec (names : gset string) dst fuel :
  size names < fuel →
  ∃ c, ensure_unique names dst fuel = Done c
       ∧ (c ∉ names)
       ∧ (dst ∉ names → c = dst)
       ∧ (dst ∈ names →
          ∃ k, 1 ≤ k ∧ c = candidate (stem dst) (Path.suffix dst) k
               ∧ ∀ j, 1 ≤ j < k →
                   candidate (stem dst) (Path.suffix dst) j ∈ names).
Proof.
  intros Hsize. unfold ensure_unique. case_bool_decide as Hin.
  - destruct (first_free_spec names (stem dst) (Path.suffix dst) fuel 1)
      as (k & Hk & E & Hf & Hbelow).
    { by apply candidate_free. }
    exists (candidate (stem dst) (Path.suffix dst) k).
    split; [done|]. split; [done|]. split; [done|]. intros _. eauto.
  - exists dst. split; [done|]. split; [done|]. split; [done|]. done.
Qed.

(** X7: given more fuel than there are names in the folder,
    ensure_unique returns a name that is not in the folder: the
    requested name when it is free, otherwise the first free name among
    stem_1suffix, stem_2suffix, ... (all earlier ones being taken). *)
Theorem ensure_unique_free (names : gset string) dst fuel :
  size names < fuel →
  ∃ c, ensure_unique names dst fuel = Done c
       ∧ (c ∉ names)
       ∧ (dst ∉ names → c = dst)
       ∧ (dst ∈ names →
          ∃ k, 1 ≤ k ∧ c = candidate (stem dst) (Path.suffix dst) k
               ∧ ∀ j, 1 ≤ j < k →
                   candidate (stem dst) (Path.suffix dst) j ∈ names).
Proof. apply ensure_unique_spec. Qed.

End Unique.

Lemma ensure_unique_free_witness :
  size ({["a.jpg"; "a_1.jpg"; "b.png"]} : gset string) < 4
  ∧ ∃ c, ensure_unique {["a.jpg"; "a_1.jpg"; "b.png"]} "a.jpg" 4 = Done c
         ∧ c ∉ ({["a.jpg"; "a_1.jpg"; "b.png"]} : gset string).
Proof.
  assert (size ({["a.jpg"; "a_1.jpg"; "b.png"]} : gset string) < 4) as H
    by (vm_compute; lia).
  split; [exact H|].
  destruct (ensure_unique_free {["a.jpg"; "a_1.jpg"; "b.png"]} "a.jpg" 4 H)
    as (c & E & Hc & _).
  exists c. by split.
Defined.

Example ensure_unique_example :
  ensure_unique {["a.jpg"; "a_1.jpg"; "b.png"]} "a.jpg" 4 = Done "a_2.jpg"
  ∧ ensure_unique {["a.jpg"; "a_1.jpg"; "b.png"]} "c.jpg" 4 = Done "c.jpg".
Proof. by vm_compute. Qed.

Lemma copy_inv_start files out_dir0 :
  copy_inv files out_dir0
    {| idx := 0; processed_count := 0; out_dir := out_dir0; copies := [] |}.
Proof.
  unfold copy_inv. simpl. repeat split; try done; try lia.
  - constructor.
  - intros d Hd. by apply elem_of_nil in Hd.
  - by rewrite (left_id_L ∅ (∪)).
Qed.

Section Copies.
Variable files : list string.
Variable out_dir0 : gset string.
Variable fuel : nat.
Hypothesis enough_fuel : size out_dir0 + length files < fuel.

Lemma copy_next_inv base st :
  copy_inv files out_dir0 st → idx st < length files →
  ∃ st', copy_next files fuel base st = Done st'
         ∧ copy_inv files out_dir0 st' ∧ idx st' = idx st + 1.
Proof.
  intros (Hp & Hle & Hsrc & Hnd & Hnew & Hout & Hsize) Hlt.
  destruct (lookup_lt_is_Some_2 files (idx st) Hlt) as [src Hsrcf].
  unfold copy_next, index. rewrite Hsrcf. simpl.
  destruct (ensure_unique_spec (out_dir st)
              (sanitize base +:+ Path.suffix src) fuel)
    as (dst & -> & Hfree & _); [lia|].
  simpl. eexists. split; [done|]. split; [|done].
  assert ((dst ∉ (copies st).*2) ∧ (dst ∉ out_dir0)) as [Hd1 Hd2].
  { rewrite Hout in Hfree.
    rewrite not_elem_of_union, not_elem_of_list_to_set in Hfree. done. }
  unfold copy_inv. simpl. rewrite !fmap_app. simpl.
  split; [lia|]. split; [lia|]. split.
  { rewrite Hsrc, Nat.add_1_r. by rewrite (take_S_r _ _ _ Hsrcf). }
  split.
  { apply NoDup_app. split; [done|]. split; [|apply NoDup_singleton].
    intros x Hx ->%list_elem_of_singleton. done. }
  split.
  { intros d [Hd| ->%list_elem_of_singleton]%elem_of_app; eauto. }
  split.
  { rewrite Hout. apply set_eq. intros x.
    rewrite !elem_of_union, !elem_of_list_to_set, elem_of_app,
      elem_of_singleton, list_elem_of_singleton. tauto. }
  rewrite size_union, size_singleton; [lia|].
  by apply disjoint_singleton_l.
Qed.

Lemma step1_loop_inv rows st :
  copy_inv files out_dir0 st → idx st + length rows ≤ length files →
  ∃ st', step1_loop files fuel rows st = Done st'
         ∧ copy_inv files out_dir0 st' ∧ idx st' = idx st + length rows.
Proof.
  revert st. induction rows as [|[[[sn id_val] lot] tag] rows IH];
    intros st Hinv Hlen; simpl in *.
  - exists st. split; [done|]. split; [done|lia].
  - destruct (copy_next_inv
                (sn +:+ ". " +:+ id_val +:+ "-" +:+ lot +:+ " (" +:+ tag +:+ ")")
                st Hinv) as (st1 & -> & Hinv1 & Hidx1); [lia|].
    simpl. destruct (IH st1 Hinv1) as (st' & E & Hinv' & Hidx'); [lia|].
    exists st'. split; [done|]. split; [done|lia].
Qed.

Lemma step2_loop_inv pair rows st :
  pair = 2 ∨ pair = 3 →
  copy_inv files out_dir0 st →
  ∃ st' k, step2_loop files fuel pair rows st = Done st'
           ∧ copy_inv files out_dir0 st'
           ∧ idx st' = idx st + pair * k
           ∧ k ≤ length rows
           ∧ (k = length rows ∨ length files < idx st' + pair).
Proof.
  intros Hpair. revert st.
  induction rows as [|[[[[SN ID1] Lot1] Tag1] Tag2] rows IH];
    intros st Hinv; simpl.
  - exists st, 0. split; [done|]. split; [done|]. split; [lia|].
    split; [lia|]. by left.
  - destruct (Nat.ltb_spec (length files) (idx st + pair)) as [Hbr|Hgo].
    + exists st, 0. split; [done|]. split; [done|]. split; [lia|].
      split; [lia|]. right. lia.
    + assert (∃ st1, (if pair =? 2 then
                        st ← copy_next files fuel
                               ((SN +:+ ". " +:+ ID1 +:+ "-" +:+ Lot1)
                                  +:+ " (" +:+ Tag1 +:+ ")") st;
                        copy_next files fuel
                          ((SN +:+ ". " +:+ ID1 +:+ "-" +:+ Lot1)
                             +:+ " (" +:+ Tag1 +:+ ") - 1") st
                      else if pair =? 3 then
                        st ← copy_next files fuel
                               ((SN +:+ ". " +:+ ID1 +:+ "-" +:+ Lot1)
                                  +:+ " (" +:+ Tag1 +:+ ")") st;
                        st ← copy_next files fuel
                               ((SN +:+ ". " +:+ ID1 +:+ "-" +:+ Lot1)
                                  +:+ " (" +:+ Tag2 +:+ ")") st;
                        copy_next files fuel
                          ((SN +:+ ". " +:+ ID1 +:+ "-" +:+ Lot1)
                             +:+ " (" +:+ Tag1 +:+ ", " +:+ Tag2 +:+ ")") st
                      else Done st) = Done st1
                     ∧ copy_inv files out_dir0 st1
                     ∧ idx st1 = idx st + pair) as (st1 & E1 & Hinv1 & Hidx1).
      { destruct Hpair as [-> | ->]; simpl.
        - destruct (copy_next_inv
                      ((SN +:+ ". " +:+ ID1 +:+ "-" +:+ Lot1)
                         +:+ " (" +:+ Tag1 +:+ ")") st Hinv)
            as (sa & -> & Ha & Hia); [lia|]. simpl.
          destruct (copy_next_inv
                      ((SN +:+ ". " +:+ ID1 +:+ "-" +:+ Lot1)
                         +:+ " (" +:+ Tag1 +:+ ") - 1") sa Ha)
            as (sb & -> & Hb & Hib); [lia|].
          exists sb. split; [done|]. split; [done|lia].
        - destruct (copy_next_inv
                      ((SN +:+ ". " +:+ ID1 +:+ "-" +:+ Lot1)
                         +:+ " (" +:+ Tag1 +:+ ")") st Hinv)
            as (sa & -> & Ha & Hia); [lia|]. simpl.
          destruct (copy_next_inv
                      ((SN +:+ ". " +:+ ID1 +:+ "-" +:+ Lot1)
                         +:+ " (" +:+ Tag2 +:+ ")") sa Ha)
            as (sb & -> & Hb & Hib); [lia|]. simpl.
          destruct (copy_next_inv
                      ((SN +:+ ". " +:+ ID1 +:+ "-" +:+ Lot1)
                         +:+ " (" +:+ Tag1 +:+ ", " +:+ Tag2 +:+ ")") sb Hb)
            as (sc & -> & Hc & Hic); [lia|].
          exists sc. split; [done|]. split; [done|lia]. }
      rewrite E1. simpl.
      destruct (IH st1 Hinv1) as (st' & k & E & Hinv' & Hidx' & Hk & Hend).
      exists st', (S k). split; [done|]. split; [done|].
      split; [lia|]. split; [lia|]. destruct Hend as [->|?]; [by left|by right].
Qed.

End Copies.

(** [list_images] of processing_core.py raises [ValueError] when the key
    of a listed image fails and otherwise returns the images, each
    once. *)
Lemma core_list_images_cases entries :
  (Exists (λ name, key_fails name = true) (core_images entries) →
   core_list_images entries = Raise ValueError)
  ∧ (Forall (λ name, key_fails name = false) (core_images entries) →
     ∃ files, core_list_images entries = Ok files
              ∧ length files ≤ length (default [] entries)).
Proof.
  destruct entries as [es|]; simpl.
  - destruct (natural_sort_cases (core_images (Some es)))
      as (Hraise & Htotal & Hok).
    split; [exact Hraise|]. intros Hall.
    destruct (Htotal Hall) as (files & E). exists files. split; [exact E|].
    destruct (Hok files E) as (Hperm & _).
    rewrite <- (Permutation_length Hperm). apply filter_length.
  - split; [by intros ?%Exists_nil|]. intros _. by exists [].
Qed.



(** ** Renaming the images of a set *)

Section RenameProps.
Context {B : Type}.
Implicit Types fs : gmap string B.

Lemma rfind_drop c s i :
  Path.rfind c s = Some i → ∃ r, Path.drop i s = String c r.
Proof.
  revert i. induction s as [|x s IH]; intros i; simpl; [done|].
  destruct (Path.rfind c s) as [j|] eqn:E.
  - intros [= <-]. simpl. by apply IH.
  - destruct (Ascii.eqb_spec x c) as [->|]; [|done].
    intros [= <-]. simpl. eauto.
Qed.

(** A suffix is empty or begins with the dot. *)
Lemma suffix_shape name :
  Path.suffix name = EmptyString ∨ ∃ r, Path.suffix name = String "." r.
Proof.
  unfold Path.suffix. destruct (Path.rfind "." name) as [i|] eqn:E; [|by left].
  destruct ((0 <? i) && (i <? String.length name - 1)); [|by left].
  right. by eapply rfind_drop.
Qed.

Lemma names_1pack p0 p1 rest sn st :
  ∃ n1 n2, new_names "1PACK" (p0 :: p1 :: rest) sn st = Ok [n1; n2] ∧ n1 ≠ n2.
Proof.
  eexists _, _. split; [reflexivity|]. intros H.
  do 3 apply append_inj_l in H.
  change (String ")" (Path.suffix p0)
          = String ")" (String "-" (String "1" (Path.suffix p1)))) in H.
  injection H as H.
  destruct (suffix_shape p0) as [E|[r E]]; rewrite E in H; discriminate.
Qed.

(** X10: in 1PACK mode the two new names of a set always differ, so the
    second rename never targets the file the first one has just
    written. *)
Theorem onepack_names_differ p0 p1 rest sn st :
  ∃ n1 n2, new_names "1PACK" (p0 :: p1 :: rest) sn st = Ok [n1; n2] ∧ n1 ≠ n2.
Proof. apply names_1pack. Qed.

(** What one rename does, by cases on the source. *)
Lemma rename_one_present fs old new content :
  fs !! old = Some content → old ≠ new →
  rename_one fs old new = <[new := content]> (delete old (delete new fs)).
Proof.
  intros Hold Hne. unfold rename_one. case_bool_decide as Hnew.
  - by rewrite lookup_delete_ne, Hold.
  - rewrite Hold. rewrite (delete_id fs new); [done|].
    by apply eq_None_not_Some.
Qed.

Lemma rename_one_same fs name : rename_one fs name name = delete name fs.
Proof.
  unfold rename_one. case_bool_decide as Hnew.
  - by rewrite lookup_delete_eq.
  - apply eq_None_not_Some in Hnew. rewrite Hnew. by rewrite delete_id.
Qed.


(** X12: in 1PACK mode, an image whose current name already is its new
    name is deleted: the existing target is removed first and the rename
    then finds no source. *)
Theorem rename_images_1pack_same_name fs p0 p1 sn st n2 :
  new_names "1PACK" [p0; p1] sn st = Ok [p0; n2] →
  ∃ fs', _rename_images fs [p0; p1] sn "1PACK" st = Ok fs'
         ∧ fs' !! p0 = None.
Proof.
  intros E.
  destruct (names_1pack p0 p1 [] sn st) as (m1 & m2 & E' & Hn).
  rewrite E in E'. injection E' as <- <-.
  unfold _rename_images. rewrite E. simpl. eexists. split; [reflexivity|].
  unfold rename_all. simpl. rewrite rename_one_same.
  assert (∀ fs1 : gmap string B,
            fs1 !! p0 = None → rename_one fs1 p1 n2 !! p0 = None) as Hkeep.
  { intros fs1 Hfs1. unfold rename_one.
    set (fs2 := if bool_decide (is_Some (fs1 !! n2)) then delete n2 fs1
                else fs1).
    assert (fs2 !! p0 = None) as Hfs2.
    { unfold fs2. case_bool_decide; [|done]. by rewrite lookup_delete_ne. }
    destruct (fs2 !! p1) as [c|]; [|done].
    rewrite lookup_insert_ne by done.
    destruct (decide (p1 = p0)) as [->|];
      [apply lookup_delete_eq|by rewrite lookup_delete_ne]. }
  apply Hkeep, lookup_delete_eq.
Qed.

Lemma names_2pack p0 p1 p2 rest sn st :
  ∃ n1 n2 n3,
    new_names "2PACK" (p0 :: p1 :: p2 :: rest) sn st = Ok [n1; n2; n3]
    ∧ n1 ≠ n3
    ∧ (tag2 st = tag1 st → Path.suffix p1 = Path.suffix p0 → n2 = n1).
Proof.
  eexists _, _, _. split; [reflexivity|]. split.
  - intros H. do 3 apply append_inj_l in H.
    destruct (tag2 st); discriminate.
  - by intros -> ->.
Qed.


End RenameProps.

(** ** Settings *)

Section Config.

Lemma dict_get_set_eq d key value :
  dict_get (dict_set d key value) key = Some value.
Proof.
  induction d as [|[k v] d IH]; simpl; [by rewrite String.eqb_refl|].
  destruct (String.eqb_spec k key) as [->|Hne]; simpl.
  - by rewrite String.eqb_refl.
  - by destruct (String.eqb_spec k key).
Qed.

Lemma dict_get_set_ne d key value key' :
  key ≠ key' → dict_get (dict_set d key value) key' = dict_get d key'.
Proof.
  intros Hne. induction d as [|[k v] d IH]; simpl.
  - by destruct (String.eqb_spec key key').
  - destruct (String.eqb_spec k key) as [->|Hk]; simpl.
    + by destruct (String.eqb_spec key key').
    + by rewrite IH.
Qed.

Lemma dict_mem_keys d1 d2 key :
  d1.*1 = d2.*1 → dict_mem d1 key = dict_mem d2 key.
Proof.
  revert d2. induction d1 as [|[k v] d1 IH]; intros [|[k' v'] d2]; simpl;
    try done.
  intros [= -> H]. by rewrite (IH d2 H).
Qed.

Lemma dict_set_keys d key value :
  dict_mem d key = true → (dict_set d key value).*1 = d.*1.
Proof.
  induction d as [|[k v] d IH]; simpl; [done|].
  destruct (String.eqb_spec k key) as [->|Hk]; simpl; [done|].
  intros H. f_equal. by apply IH.
Qed.

Lemma dict_mem_get d key : dict_mem d key = false → dict_get d key = None.
Proof.
  induction d as [|[k v] d IH]; simpl; [done|].
  destruct (String.eqb k key); simpl; [done|exact IH].
Qed.

(** The first loop of [get_config] rebuilds the defaults. *)
Lemma defaults_rebuilt :
  foldl (λ merged '(key, value), dict_set merged key value) [] DEFAULT_CONFIG
  = DEFAULT_CONFIG.
Proof. reflexivity. Qed.

Lemma overwrite_known_snoc cfg items key value :
  overwrite_known cfg (items ++ [(key, value)])
  = if dict_mem DEFAULT_CONFIG key
    then dict_set (overwrite_known cfg items) key value
    else overwrite_known cfg items.
Proof. unfold overwrite_known. by rewrite foldl_app. Qed.

Lemma overwrite_known_keys cfg items :
  cfg.*1 = DEFAULT_CONFIG.*1 → (overwrite_known cfg items).*1 = cfg.*1.
Proof.
  intros Hk. induction items as [|[key value] items IH] using rev_ind; [done|].
  rewrite overwrite_known_snoc.
  destruct (dict_mem DEFAULT_CONFIG key) eqn:Hm; [|done].
  rewrite dict_set_keys; [done|].
  rewrite <- Hm. apply dict_mem_keys. by rewrite IH.
Qed.

Lemma overwrite_known_get cfg items key :
  dict_get (overwrite_known cfg items) key
  = if dict_mem DEFAULT_CONFIG key
    then match dict_get (reverse items) key with
         | Some value => Some value
         | None => dict_get cfg key
         end
    else dict_get cfg key.
Proof.
  induction items as [|[k v] items IH] using rev_ind.
  { destruct (dict_mem DEFAULT_CONFIG key); reflexivity. }
  rewrite overwrite_known_snoc, reverse_snoc. cbn [dict_get].
  destruct (String.eqb_spec k key) as [->|Hne].
  - destruct (dict_mem DEFAULT_CONFIG key) eqn:Hm.
    + apply dict_get_set_eq.
    + by rewrite IH.
  - destruct (dict_mem DEFAULT_CONFIG k).
    + by rewrite dict_get_set_ne.
    + done.
Qed.

Lemma get_config_keys file : (get_config file).*1 = DEFAULT_CONFIG.*1.
Proof.
  unfold get_config. rewrite defaults_rebuilt. by apply overwrite_known_keys.
Qed.

(** X14: get_config returns exactly the keys of DEFAULT_CONFIG, in its
    order, whatever the settings file holds. A key of DEFAULT_CONFIG has
    the value the file gives it (the last one, were it repeated) and its
    default when the file is absent, unreadable or silent on it; a key
    that is not in DEFAULT_CONFIG is never returned. *)
Theorem get_config_keys_and_values file :
  (get_config file).*1 = DEFAULT_CONFIG.*1
  ∧ ∀ key,
      dict_get (get_config file) key
      = if dict_mem DEFAULT_CONFIG key
        then match dict_get (reverse (_load_user_config file)) key with
             | Some value => Some value
             | None => dict_get DEFAULT_CONFIG key
             end
        else None.
Proof.
  unfold get_config. rewrite defaults_rebuilt. split.
  - by apply overwrite_known_keys.
  - intros key. rewrite overwrite_known_get.
    destruct (dict_mem DEFAULT_CONFIG key) eqn:Hm; [done|].
    by apply dict_mem_get.
Qed.

Lemma overwrite_known_cons cfg key value items :
  overwrite_known cfg ((key, value) :: items)
  = overwrite_known
      (if dict_mem DEFAULT_CONFIG key then dict_set cfg key value else cfg)
      items.
Proof. reflexivity. Qed.

Lemma overwrite_known_cons_other k v m items :
  k ∉ items.*1 →
  overwrite_known ((k, v) :: m) items
  = (k, v) :: overwrite_known m items.
Proof.
  revert m. induction items as [|[k' v'] items IH]; intros m Hk; [done|].
  rewrite fmap_cons in Hk. apply not_elem_of_cons in Hk as [Hne Hk].
  simpl in Hne. rewrite !overwrite_known_cons.
  destruct (dict_mem DEFAULT_CONFIG k'); [|by apply IH].
  cbn [dict_set]. destruct (String.eqb_spec k k') as [->|_]; [done|].
  by apply IH.
Qed.

(** Writing every item of a dict into a dict with the same keys gives
    the former. *)
Lemma overwrite_known_same_keys m d :
  m.*1 = d.*1 → NoDup d.*1 →
  Forall (λ key, dict_mem DEFAULT_CONFIG key = true) d.*1 →
  overwrite_known m d = d.
Proof.
  revert m. induction d as [|[k v] d IH]; intros [|[k' w] m];
    rewrite ?fmap_cons; try done.
  intros [= -> Hkeys] [Hk Hnd]%NoDup_cons [Hmem Hall]%Forall_cons.
  rewrite overwrite_known_cons. cbn [fst] in Hmem. rewrite Hmem.
  cbn [dict_set]. rewrite String.eqb_refl.
  rewrite overwrite_known_cons_other by done. by rewrite IH.
Qed.

Lemma default_keys_known :
  NoDup DEFAULT_CONFIG.*1
  ∧ Forall (λ key, dict_mem DEFAULT_CONFIG key = true) DEFAULT_CONFIG.*1.
Proof.
  split.
  - refine (bool_decide_unpack (NoDup DEFAULT_CONFIG.*1) _).
    vm_compute. exact I.
  - repeat constructor.
Qed.

(** Reading back the settings that were saved gives them again, as long
    as they have the keys of the defaults. *)
Lemma get_config_saved cfg :
  cfg.*1 = DEFAULT_CONFIG.*1 → get_config (save_config cfg) = cfg.
Proof.
  intros Hk. unfold get_config, save_config.
  rewrite defaults_rebuilt. cbn [_load_user_config].
  destruct default_keys_known as [Hnd Hall].
  apply overwrite_known_same_keys; by rewrite ?Hk.
Qed.

(** X15: after update_config, get_config returns the settings that were
    saved: the settings read before the update with the known keys of
    the update overwritten, and no key added. *)
Theorem update_config_round_trip updates file :
  get_config (update_config updates file)
  = overwrite_known (get_config file) updates
  ∧ (get_config (update_config updates file)).*1 = DEFAULT_CONFIG.*1.
Proof.
  pose proof (get_config_keys file) as Hk.
  assert ((overwrite_known (get_config file) updates).*1 = DEFAULT_CONFIG.*1)
    as Hk' by by rewrite overwrite_known_keys.
  unfold update_config. rewrite get_config_saved by done. done.
Qed.

Example update_config_example :
  let file := update_config [("PACK_MODE", VStr "2PACK"); ("THEME", VStr "x")]
                (Json [("OCR_MIN_SCORE", VNum (1 # 2))]) in
  dict_get (get_config file) "PACK_MODE" = Some (VStr "2PACK")
  ∧ dict_get (get_config file) "OCR_MIN_SCORE" = Some (VNum (1 # 2))
  ∧ dict_get (get_config file) "THEME" = None
  ∧ dict_get (get_config file) "OCR_MODE" = Some (VStr "LOCAL").
Proof. repeat split. Qed.

End Config.

(** ** When a report is produced *)

Section ReportMore.

Lemma count_into_ok df col enabled missing r :
  count_into df col enabled missing = Ok r ↔
  (df_col df col = None ∨ enabled = false) ∧ r = missing.
Proof.
  unfold count_into. destruct (df_col df col) as [v|].
  - destruct enabled.
    + destruct (count_missing_raises v) as [e ->]. simpl.
      split; [done|]. by intros [[?|?] _].
    + split; [intros [= <-]; eauto|by intros [_ ->]].
  - split; [intros [= <-]; eauto|by intros [_ ->]].
Qed.

Lemma count_into_skip df col enabled missing :
  df_col df col = None ∨ enabled = false →
  count_into df col enabled missing = Ok missing.
Proof. intros H. by apply count_into_ok. Qed.

Lemma count_missing_fields_ok df pack_mode m :
  _count_missing_fields df pack_mode = Ok m ↔
  df_col df "ID1" = None ∧ df_col df "Lot1" = None ∧ df_col df "Tag1" = None
  ∧ (pack_mode = "2PACK" → df_col df "Tag2" = None)
  ∧ m = {[ "ID1" := 0%Z; "Lot1" := 0%Z; "Tag1" := 0%Z; "Tag2" := 0%Z ]}.
Proof.
  unfold _count_missing_fields.
  set (m0 := ({[ "ID1" := 0%Z; "Lot1" := 0%Z; "Tag1" := 0%Z; "Tag2" := 0%Z ]}
              : gmap string Z)).
  split.
  - destruct (count_into df "ID1" true m0) as [m1|] eqn:E1; [|done].
    apply count_into_ok in E1 as [[H1|?] ->]; [|done]. cbn [mbind result_bind].
    destruct (count_into df "Lot1" true m0) as [m2|] eqn:E2; [|done].
    apply count_into_ok in E2 as [[H2|?] ->]; [|done]. cbn [mbind result_bind].
    destruct (count_into df "Tag1" true m0) as [m3|] eqn:E3; [|done].
    apply count_into_ok in E3 as [[H3|?] ->]; [|done]. cbn [mbind result_bind].
    destruct (count_into df "Tag2" (String.eqb pack_mode "2PACK") m0)
      as [m4|] eqn:E4; [|done].
    apply count_into_ok in E4 as [H4 ->]. cbn [mbind result_bind].
    intros [= <-]. do 3 (split; [done|]). split; [|done].
    intros ->. by destruct H4.
  - intros (H1 & H2 & H3 & H4 & ->).
    do 3 (rewrite count_into_skip by eauto; cbn [mbind result_bind]).
    rewrite count_into_skip; [done|].
    destruct (String.eqb_spec pack_mode "2PACK"); eauto.
Qed.

(** X16: generate_report produces a report exactly for the tables that
    have no ID1, Lot1 and Tag1 column (and, in 2PACK mode, no Tag2
    column); for every other table it raises. A report that is produced
    shows rows * 2 expected images for 1PACK and rows * 3 for any other
    mode, shows the difference actual - expected when it is not zero,
    and counts no missing field. *)
Theorem generate_report_ok_iff df folder pack_mode image_count excel_path :
  ((∃ r, generate_report df folder pack_mode image_count excel_path = Ok r)
   ↔ df_col df "ID1" = None ∧ df_col df "Lot1" = None
     ∧ df_col df "Tag1" = None
     ∧ (pack_mode = "2PACK" → df_col df "Tag2" = None))
  ∧ ∀ r, generate_report df folder pack_mode image_count excel_path = Ok r →
      r_num_sets r = df_len df
      ∧ r_expected_images r
        = (Z.of_nat (df_len df) * Z.of_nat (group_size pack_mode))%Z
      ∧ r_diff r
        = (if (image_count - r_expected_images r =? 0)%Z then None
           else Some (image_count - r_expected_images r)%Z)
      ∧ r_missing r
        = {[ "ID1" := 0%Z; "Lot1" := 0%Z; "Tag1" := 0%Z; "Tag2" := 0%Z ]}.
Proof.
  split.
  - split.
    + intros [r E]. unfold generate_report in E.
      destruct (_count_missing_fields df pack_mode) as [m|] eqn:Em.
      * apply count_missing_fields_ok in Em as (? & ? & ? & ? & _). done.
      * by destruct (String.eqb pack_mode "1PACK").
    + intros (H1 & H2 & H3 & H4).
      assert (_count_missing_fields df pack_mode
              = Ok {[ "ID1" := 0%Z; "Lot1" := 0%Z; "Tag1" := 0%Z;
                      "Tag2" := 0%Z ]}) as Em
        by by apply count_missing_fields_ok.
      unfold generate_report. rewrite Em.
      destruct (String.eqb pack_mode "1PACK"); simpl; eauto.
  - intros r E.
    destruct (generate_report_counts _ _ _ _ _ _ E) as (Hn & He & _ & Hd).
    split; [done|]. split; [done|]. split; [done|].
    unfold generate_report in E.
    destruct (_count_missing_fields df pack_mode) as [m|] eqn:Em.
    + apply count_missing_fields_ok in Em as (_ & _ & _ & _ & ->).
      destruct (String.eqb pack_mode "1PACK"); simpl in E;
        by injection E as <-.
    + by destruct (String.eqb pack_mode "1PACK").
Qed.

End ReportMore.

(** ** Bounds of the aggregated score *)

Section Scores.

Lemma sum_bounds lo hi (l : list Q) :
  Forall (λ s, lo <= s ∧ s <= hi)%Q l →
  (inject_Z (Z.of_nat (length l)) * lo <= fold_right Qplus 0 l
   ∧ fold_right Qplus 0 l <= inject_Z (Z.of_nat (length l)) * hi)%Q.
Proof.
  induction 1 as [|s l [Hlo Hhi] _ [IHlo IHhi]].
  - simpl. rewrite !Qmult_0_l. split; apply Qle_refl.
  - cbn [length fold_right]. rewrite Nat2Z.inj_succ, <- Z.add_1_l, inject_Z_plus.
    rewrite !Qmult_plus_distr_l, !Qmult_1_l.
    split; by apply Qplus_le_compat.
Qed.

(** The mean of scores lies between any bounds of the scores. *)
Lemma average_bounds lo hi (l : list Q) :
  l ≠ [] → Forall (λ s, lo <= s ∧ s <= hi)%Q l →
  (lo <= average l ∧ average l <= hi)%Q.
Proof.
  intros Hne Hall. destruct l as [|s l]; [done|].
  destruct (sum_bounds lo hi _ Hall) as [Hlo Hhi].
  change (average (s :: l))
    with (Qsum (s :: l) / inject_Z (Z.of_nat (length (s :: l))))%Q.
  rewrite Qsum_spec.
  assert (0 < inject_Z (Z.of_nat (length (s :: l))))%Q as Hpos.
  { change 0%Q with (inject_Z 0). rewrite <- Zlt_Qlt. simpl length. lia. }
  split.
  - apply Qle_shift_div_l; [done|]. by rewrite Qmult_comm.
  - apply Qle_shift_div_r; [done|]. by rewrite Qmult_comm.
Qed.

(** X17: when the OCR engine gives every image a score of at most 1, the
    aggregated confidence of a set lies between 0 and 1. *)
Theorem aggregated_score_bounds (ocr : string → string * Q) T lookup
    pack_mode sn img rest :
  (∀ i, ((ocr i).2 <= 1)%Q) →
  ∃ o, worker_set ocr T lookup pack_mode sn (img :: rest) = Ok o
       ∧ (0 <= current_avg_score o)%Q ∧ (current_avg_score o <= 1)%Q.
Proof.
  intros Hle.
  destruct (worker_set_run ocr T lookup pack_mode sn img rest)
    as (i & l & t & t2 & _ & _ & E).
  cbv zeta in E. eexists. split; [exact E|]. simpl current_avg_score.
  destruct (positive_scores ocr (img :: rest)) as [|s ss] eqn:Hpos.
  { simpl. split; [apply Qle_refl|done]. }
  rewrite <- Hpos.
  apply average_bounds; [by rewrite Hpos|].
  unfold positive_scores. apply List.Forall_forall.
  intros s' [Hin Hgt]%filter_In. split.
  - apply Qlt_le_weak. by apply Qlt_bool_iff.
  - apply in_map_iff in Hin as ([txt sc] & <- & Hin).
    apply in_map_iff in Hin as (i' & Hi & _). specialize (Hle i').
    rewrite Hi in Hle. done.
Qed.

End Scores.

(** ** The batch as a whole *)

Section Batch.
Context {F : Type} `{Score F} {B : Type}.
Variable ocr : string → string * F.
Variable T : F.
Variable lookup : gmap Z S1Row.
Variable pack_mode : string.

Local Abbreviation run_one := (worker_set ocr T lookup pack_mode).
Local Abbreviation run_from := (worker_loop (B:=B) ocr T lookup pack_mode).

(** The names of a set are computed when it has the images the mode
    needs; a shorter set has no image at one of the indexes. *)
Lemma new_names_cases g sn st :
  if group_size pack_mode <=? length g
  then ∃ names, new_names pack_mode g sn st = Ok names
                ∧ length names = group_size pack_mode
  else new_names pack_mode g sn st = Raise IndexError.
Proof.
  unfold new_names, group_size.
  destruct (String.eqb pack_mode "1PACK").
  - destruct g as [|p0 [|p1 g]]; simpl; eauto.
  - destruct g as [|p0 [|p1 [|p2 g]]]; simpl; eauto.
Qed.

Lemma group_size_pos : 2 ≤ group_size pack_mode.
Proof. unfold group_size. destruct (String.eqb _ _); lia. Qed.

(** One turn of the loop on a set that is long enough. *)
Lemma turn_ok sn g (fs : gmap string B) :
  group_size pack_mode ≤ length g →
  ∃ o fs1,
    run_one sn g = Ok o
    ∧ _rename_images fs g sn pack_mode (final o) = Ok fs1
    ∧ lot (final o) ≠ EmptyString ∧ tag1 (final o) ≠ EmptyString.
Proof.
  intros Hlen. pose proof group_size_pos as Hpos.
  destruct g as [|img rest]; [simpl in Hlen; lia|].
  destruct (worker_set_nonempty ocr T lookup pack_mode sn img rest)
    as (o & E & Hl & Ht).
  pose proof (new_names_cases (img :: rest) sn (final o)) as Hn.
  destruct (Nat.leb_spec (group_size pack_mode) (length (img :: rest)));
    [|lia].
  destruct Hn as (names & En & _).
  exists o. unfold _rename_images. rewrite En. simpl. eauto 10.
Qed.

(** One turn on a shorter set raises [IndexError]: at the first text when
    the set is empty, at a name otherwise. *)
Lemma turn_raise sn g (fs : gmap string B) :
  length g < group_size pack_mode →
  (o ← run_one sn g; _rename_images fs g sn pack_mode (final o))
  = Raise IndexError.
Proof.
  intros Hlen. destruct g as [|img rest]; [done|].
  destruct (worker_set_nonempty ocr T lookup pack_mode sn img rest)
    as (o & -> & _). simpl.
  pose proof (new_names_cases (img :: rest) sn (final o)) as Hn.
  destruct (Nat.leb_spec (group_size pack_mode) (length (img :: rest)));
    [lia|].
  unfold _rename_images. by rewrite Hn.
Qed.

Lemma worker_loop_cons sn g groups (fs : gmap string B) :
  run_from sn (g :: groups) fs
  = fs1 ← (o ← run_one sn g; _rename_images fs g sn pack_mode (final o));
    o ← run_one sn g;
    '(os, fs2) ← run_from (sn + 1) groups fs1;
    Ok (o :: os, fs2).
Proof. simpl. by destruct (run_one sn g). Qed.

Lemma worker_loop_total sn groups (fs : gmap string B) :
  Forall (λ g, group_size pack_mode ≤ length g) groups →
  ∃ rows fs',
    run_from sn groups fs = Ok (rows, fs')
    ∧ length rows = length groups
    ∧ Forall (λ o, lot (final o) ≠ EmptyString
                   ∧ tag1 (final o) ≠ EmptyString) rows.
Proof.
  intros Hg. revert sn fs. induction Hg as [|g groups Hlen _ IH]; intros sn fs.
  - exists [], fs. by repeat split.
  - destruct (turn_ok sn g fs Hlen) as (o & fs1 & E & Er & Hl & Ht).
    destruct (IH (sn + 1)%Z fs1) as (rows & fs' & El & Hrows & Hall).
    exists (o :: rows), fs'. simpl. rewrite E. simpl. rewrite Er. simpl.
    rewrite El. simpl. split; [done|]. split; [by rewrite Hrows|].
    by constructor.
Qed.

Lemma worker_loop_raise sn groups (fs : gmap string B) :
  Exists (λ g, length g < group_size pack_mode) groups →
  run_from sn groups fs = Raise IndexError.
Proof.
  intros Hex. revert sn fs.
  induction groups as [|g groups IH]; intros sn fs;
    [by apply Exists_nil in Hex|].
  rewrite worker_loop_cons.
  destruct (Nat.lt_ge_cases (length g) (group_size pack_mode)) as [Hs|Hlen].
  - by rewrite turn_raise.
  - apply Exists_cons in Hex as [?|Hex]; [lia|].
    destruct (turn_ok sn g fs Hlen) as (o & fs1 & E & Er & _).
    rewrite E. simpl. rewrite Er. simpl. by rewrite IH.
Qed.

Lemma worker_loop_ok sn groups (fs : gmap string B) rows fs' :
  run_from sn groups fs = Ok (rows, fs') →
  Forall (λ g, group_size pack_mode ≤ length g) groups
  ∧ length rows = length groups
  ∧ ∀ i g, groups !! i = Some g →
      ∃ o, rows !! i = Some o ∧ run_one (sn + Z.of_nat i) g = Ok o.
Proof.
  revert sn fs rows. induction groups as [|g groups IH]; intros sn fs rows.
  { simpl. intros [= <- <-]. split; [constructor|]. split; [done|].
    by intros i g. }
  destruct (Nat.lt_ge_cases (length g) (group_size pack_mode)) as [Hs|Hlen].
  { rewrite worker_loop_cons, turn_raise by done. done. }
  destruct (turn_ok sn g fs Hlen) as (o & fs1 & E & Er & _).
  simpl. rewrite E. simpl. rewrite Er. simpl.
  destruct (run_from (sn + 1) groups fs1) as [[os fs2]|] eqn:Eos; [|done].
  simpl. intros [= <- <-]. destruct (IH _ _ _ Eos) as (Hall & Hrows & Hpos).
  split; [by constructor|]. split; [simpl; by rewrite Hrows|].
  intros [|i] g'; simpl.
  - intros [= <-]. exists o. by rewrite Z.add_0_r.
  - intros Hg. destruct (Hpos i g' Hg) as (o' & Ho' & Erun).
    exists o'. split; [done|]. rewrite <- Erun. f_equal. lia.
Qed.

(** X18: the loop of _worker_s2 gives a row to every set exactly when
    every set has the images the mode needs (2 for 1PACK, 3 otherwise);
    a shorter set raises IndexError, at the first text when it is empty
    and at the names of _rename_images otherwise, which ends the batch.
    When the loop ends there are as many rows as sets, and the row at
    position i (from 0) is the outcome of set i with SN i + 1. *)
Theorem worker_rows_by_position groups (fs : gmap string B) :
  ((∃ rows fs',
      _worker_s2_rows ocr T lookup pack_mode groups fs = Ok (rows, fs'))
   ↔ Forall (λ g, group_size pack_mode ≤ length g) groups)
  ∧ (Exists (λ g, length g < group_size pack_mode) groups →
     _worker_s2_rows ocr T lookup pack_mode groups fs = Raise IndexError)
  ∧ ∀ rows fs',
      _worker_s2_rows ocr T lookup pack_mode groups fs = Ok (rows, fs') →
      length rows = length groups
      ∧ ∀ i g, groups !! i = Some g →
          ∃ o, rows !! i = Some o
               ∧ worker_set ocr T lookup pack_mode (Z.of_nat i + 1) g = Ok o.
Proof.
  unfold _worker_s2_rows. split; [|split].
  - split.
    + intros (rows & fs' & E). by apply worker_loop_ok in E as [? _].
    + intros Hall.
      destruct (worker_loop_total 1 groups fs Hall) as (rows & fs' & E & _).
      eauto.
  - apply worker_loop_raise.
  - intros rows fs' E. apply worker_loop_ok in E as (_ & Hlen & Hpos).
    split; [done|]. intros i g Hg.
    destruct (Hpos i g Hg) as (o & Ho & Er). exists o. split; [done|].
    by rewrite Z.add_comm.
Qed.

(** X19: when no lookup row exists for the SN, a set that ends with the
    lot NO_LOT also ends with the tag NO_TAG and an empty id: the
    extraction never finds a tag or an id without a lot. *)
Theorem no_lot_implies_no_tag sn img rest :
  lookup !! sn = None →
  ∃ o, worker_set ocr T lookup pack_mode sn (img :: rest) = Ok o
       ∧ (lot (final o) = "NO_LOT" →
          tag1 (final o) = "NO_TAG" ∧ id_val (final o) = EmptyString).
Proof.
  intros Hnone.
  destruct (worker_set_run ocr T lookup pack_mode sn img rest)
    as (i & l & t & t2 & E1 & _ & E).
  cbv zeta in E. eexists. split; [exact E|]. simpl final.
  rewrite Hnone. cbn [apply_backup].
  match goal with
  | |- context [final_check ?st] =>
      destruct (final_check_spec st) as (Hi & _ & Hl & Ht & _);
      rewrite Hi, Hl, Ht; clear Hi Hl Ht
  end.
  cbn [lot tag1 id_val].
  destruct (extract_id_iff_lot _ _ _ _ E1) as [Hiff Htl].
  destruct (extract_cases (ocr img).1)
    as [E'|[(i' & l' & E' & Hm & _)|(i' & l' & t' & E' & Hm & _)]];
    rewrite E1 in E'; injection E' as -> -> ->.
  - done.
  - destruct (Str.truthy l') eqn:Hl; [|by apply truthy_false in Hl as ->].
    intros ->. by vm_compute in Hm.
  - destruct (Str.truthy l') eqn:Hl.
    + intros ->. by vm_compute in Hm.
    + apply truthy_false in Hl as ->. by vm_compute in Hm.
Qed.
End Batch.

Section Pipeline.

Lemma group_images_groups entries pack_mode ans files :
  list_images entries = Ok files →
  ∃ groups,
    group_images entries pack_mode ans = Ok groups
    ∧ Forall (λ g, length g = group_size pack_mode) groups.
Proof.
  intros E.
  destruct (group_images_from files entries pack_mode ans E)
    as (groups & Eg & Hall & _). eauto.
Qed.


End Pipeline.

(** ** The sort key and the two image listers *)

Section Listing.

Lemma is_digit_lower c : Str.is_digit (Str.char_lower c) = Str.is_digit c.
Proof. by destruct c as [[] [] [] [] [] [] [] []]. Qed.

Lemma char_lower_idem c : Str.char_lower (Str.char_lower c) = Str.char_lower c.
Proof. by destruct c as [[] [] [] [] [] [] [] []]. Qed.

Lemma char_lower_digit c : Str.is_digit c = true → Str.char_lower c = c.
Proof. by destruct c as [[] [] [] [] [] [] [] []]. Qed.

Lemma push_map f c runs :
  Str.map f <$> push c runs = push (f c) (Str.map f <$> runs).
Proof. by destruct runs. Qed.

Lemma split_lower s :
  in_text (Str.lower s) = Str.lower <$> in_text s
  ∧ in_digits (Str.lower s) = Str.lower <$> in_digits s.
Proof.
  induction s as [|c s [IHt IHd]]; [done|].
  change (Str.lower (String c s))
    with (String (Str.char_lower c) (Str.lower s)).
  cbn [in_text in_digits]. rewrite is_digit_lower, IHt, IHd.
  change Str.lower with (Str.map Str.char_lower).
  destruct (Str.is_digit c); cbn [fmap list_fmap]; by rewrite !push_map.
Qed.

Lemma is_digit_char_lower c :
  Str.is_digit_char (Str.char_lower c) = Str.is_digit_char c.
Proof. by destruct c as [[] [] [] [] [] [] [] []]. Qed.

Lemma char_lower_digit_char c :
  Str.is_digit_char c = true → Str.char_lower c = c.
Proof. by destruct c as [[] [] [] [] [] [] [] []]. Qed.

Lemma lower_digits r : Str.all Str.is_digit_char r = true → Str.lower r = r.
Proof.
  induction r as [|c r IH]; [done|]. simpl.
  intros [Hc Hr]%andb_prop. unfold Str.lower in *. simpl.
  by rewrite char_lower_digit_char, IH.
Qed.

Lemma all_digit_lower r :
  Str.all Str.is_digit_char (Str.lower r) = Str.all Str.is_digit_char r.
Proof.
  induction r as [|c r IH]; [done|]. unfold Str.lower in *. simpl.
  by rewrite is_digit_char_lower, IH.
Qed.

Lemma mapM_fmap_ext {X Y Z} (f : Y → result Z) (f' : X → result Z)
    (g : X → Y) l :
  (∀ x, f (g x) = f' x) → mapM f (g <$> l) = mapM f' l.
Proof.
  intros Hext. induction l as [|x l IH]; [done|]. rewrite fmap_cons.
  change (mapM f (g x :: (g <$> l)))
    with (y ← f (g x); k ← mapM f (g <$> l); mret (y :: k)).
  by rewrite Hext, IH.
Qed.

Lemma key_lower s : _natural_sort_key (Str.lower s) = _natural_sort_key s.
Proof.
  unfold _natural_sort_key, re_split_digits.
  rewrite (proj1 (split_lower s)).
  apply mapM_fmap_ext. intros r. unfold isdigit.
  rewrite all_digit_lower.
  replace (Str.truthy (Str.lower r)) with (Str.truthy r) by by destruct r.
  destruct (Str.truthy r && Str.all Str.is_digit_char r) eqn:Hd.
  - apply andb_prop in Hd as [_ Hd]. by rewrite lower_digits.
  - do 2 f_equal. unfold Str.lower. rewrite map_map. apply map_ext.
    intros c. apply char_lower_idem.
Qed.

(** X21: the sort key ignores letter case: two names that are equal once
    lowered have the same key, so neither sorts before the other, and
    the key of a name in upper case is the key of the name. *)
Theorem natural_sort_key_ignores_case a b :
  Str.lower a = Str.lower b →
  _natural_sort_key a = _natural_sort_key b
  ∧ ∀ ka kb, _natural_sort_key a = Ok ka → _natural_sort_key b = Ok kb →
      key_lt ka kb = Ok false.
Proof.
  intros Hab.
  assert (_natural_sort_key a = _natural_sort_key b) as E.
  { by rewrite <- (key_lower a), Hab, key_lower. }
  split; [done|]. intros ka kb Ea Eb.
  assert (kb = ka) as -> by congruence.
  destruct (natural_keys_comparable a a ka ka Ea Ea) as [lt Hlt].
  rewrite Hlt. f_equal.
  destruct lt; [|done].
  pose proof (key_lt_asym _ _ Hlt) as Hno. by rewrite Hlt in Hno.
Qed.

(** X22: the lister of processing_core.py and the lister of
    image_grouping.py return the same files, in the same order, for a
    folder in which no file has the extension .gif or .webp (in any
    case); the first also takes .gif files, the second .webp files. *)
Theorem listers_agree entries :
  Forall (λ name, Str.lower (Path.suffix name) ≠ ".gif"
                  ∧ Str.lower (Path.suffix name) ≠ ".webp") entries →
  core_list_images (Some entries) = list_images entries.
Proof.
  intros Hall. unfold core_list_images, list_images. f_equal.
  induction Hall as [|name es [Hg Hw] _ IH]; [done|].
  cbn [List.filter]. rewrite IH. clear IH.
  replace (is_image name)
    with (existsb (String.eqb (Str.lower (Path.suffix name))) IMG_WHITELIST);
    [done|].
  unfold is_image, IMG_WHITELIST, IMG_EXTS. cbn [existsb].
  apply String.eqb_neq in Hg, Hw. rewrite Hg, Hw.
  by rewrite !orb_false_r, !orb_false_l.
Qed.

Example listers_differ :
  core_list_images (Some ["a.gif"; "b.webp"; "c.jpg"]) = Ok ["a.gif"; "c.jpg"]
  ∧ list_images ["a.gif"; "b.webp"; "c.jpg"] = Ok ["b.webp"; "c.jpg"].
Proof. by vm_compute. Qed.

End Listing.

(** ** The text and the score of one image *)

Section Summary.

Lemma detections_collected (result : list (list (string * Q))) texts scores :
  foldl
    (λ acc line,
       foldl (λ '(texts, scores) '(txt, score),
                (texts ++ [txt], scores ++ [score]))
         acc line)
    (texts, scores) result
  = (texts ++ (concat result).*1, scores ++ (concat result).*2).
Proof.
  revert texts scores. induction result as [|line result IH]; intros texts scores.
  { simpl. by rewrite !app_nil_r. }
  cbn [foldl concat]. rewrite !fmap_app.
  assert (∀ texts scores,
    foldl (λ '(texts, scores) '(txt, score),
             (texts ++ [txt], scores ++ [score]))
      (texts, scores) line
    = (texts ++ line.*1, scores ++ line.*2)) as Hline.
  { clear. induction line as [|[txt score] line IH]; intros texts scores.
    - simpl. by rewrite !app_nil_r.
    - cbn [foldl]. rewrite IH. cbn [fmap list_fmap fst snd].
      by rewrite <- !app_assoc. }
  rewrite Hline, IH. by rewrite <- !app_assoc.
Qed.

Lemma ocr_result_summary_eq result :
  ocr_result_summary result
  = (Text.strip (join_spaces (concat result).*1),
     average (concat result).*2).
Proof.
  unfold ocr_result_summary. by rewrite detections_collected.
Qed.

(** X23: the text and the score that ocr_extract_from_image builds from
    the detections of the engine: the text has no whitespace at either
    end; without any detection the result is the empty text and the
    score 0; when every detection has a score between 0 and 1, so has
    the image. *)
Theorem ocr_result_summary_bounds result :
  Text.strip (ocr_result_summary result).1 = (ocr_result_summary result).1
  ∧ (concat result = [] → ocr_result_summary result = (EmptyString, 0%Q))
  ∧ (Forall (Forall (λ d, 0 <= d.2 ∧ d.2 <= 1)%Q) result →
     (0 <= (ocr_result_summary result).2
      ∧ (ocr_result_summary result).2 <= 1)%Q).
Proof.
  rewrite ocr_result_summary_eq. cbn [fst snd].
  split; [apply strip_text_idem|]. split; [by intros ->|].
  intros Hall.
  destruct ((concat result).*2) as [|s ss] eqn:Hs.
  { simpl. split; [apply Qle_refl|done]. }
  rewrite <- Hs. apply average_bounds; [by rewrite Hs|].
  clear Hs. induction Hall as [|line result Hline _ IH]; [constructor|].
  cbn [concat]. rewrite fmap_app. apply Forall_app. split; [|done].
  clear IH. induction Hline as [|d line Hd _ IH]; by constructor.
Qed.

End Summary.

(** ** The rows the report lists *)

Section ReportRows.

Lemma collect_foldl {A} (flag : nat → bool) (sn : nat → A) acc l :
  foldl (λ sn_list idx, if flag idx then sn_list ++ [sn idx] else sn_list)
    acc l
  = acc ++ (sn <$> List.filter flag l).
Proof.
  revert acc. induction l as [|i l IH]; intros acc; simpl.
  - by rewrite app_nil_r.
  - rewrite IH. destruct (flag i); simpl; [|done]. by rewrite <- app_assoc.
Qed.

(** X24: _collect_sn_with_missing lists, in row order, the SN of every
    row in which a required field that the table has (ID1, Lot1, Tag1,
    and Tag2 for 2PACK) is NaN or blank, the SN being the value of the
    SN column or, without that column, the row number from 1; so the
    list is empty exactly when no row is incomplete. *)
Theorem collect_sn_with_missing_spec df pack_mode :
  (∀ sn, sn ∈ _collect_sn_with_missing df pack_mode ↔
     ∃ idx, idx < df_len df ∧ row_incomplete df pack_mode idx
            ∧ sn = default (CInt (Z.of_nat idx + 1)) (df_at df "순번" idx))
  ∧ (_collect_sn_with_missing df pack_mode = [] ↔
     ∀ idx, idx < df_len df → ¬ row_incomplete df pack_mode idx)
  ∧ length (_collect_sn_with_missing df pack_mode) ≤ df_len df.
Proof.
  pose (req := ["ID1"; "Lot1"; "Tag1"]
                ++ (if String.eqb pack_mode "2PACK" then ["Tag2"] else [])).
  pose (flag := λ idx : nat,
          existsb
            (λ col, match df_at df col idx with
                    | Some val => isna val || blank val
                    | None => false
                    end) req).
  assert (_collect_sn_with_missing df pack_mode
          = (λ idx, default (CInt (Z.of_nat idx + 1)) (df_at df "순번" idx))
              <$> List.filter flag (seq 0 (df_len df))) as ->.
  { unfold _collect_sn_with_missing. by rewrite collect_foldl. }
  assert (∀ idx, flag idx = true ↔ row_incomplete df pack_mode idx) as Hflag.
  { intros idx. unfold flag, row_incomplete. fold req.
    rewrite existsb_exists. split.
    - intros (col & Hin & Hc). destruct (df_at df col idx) as [val|] eqn:E; [|done].
      exists col, val. by rewrite list_elem_of_In.
    - intros (col & val & Hin & E & Hc). exists col.
      rewrite <- list_elem_of_In. by rewrite E. }
  split; [|split].
  - intros sn. rewrite list_elem_of_fmap. split.
    + intros (idx & -> & Hin). apply list_elem_of_In, filter_In in Hin as [Hin Hf].
      apply in_seq in Hin. exists idx. split; [lia|]. split; [by apply Hflag|done].
    + intros (idx & Hlt & Hinc & ->). exists idx. split; [done|].
      apply list_elem_of_In, filter_In. split; [apply in_seq; lia|by apply Hflag].
  - split.
    + intros Hnil idx Hlt Hinc. apply fmap_nil_inv in Hnil.
      assert (In idx (List.filter flag (seq 0 (df_len df)))) as Hin.
      { apply filter_In. split; [apply in_seq; lia|by apply Hflag]. }
      by rewrite Hnil in Hin.
    + intros Hnone.
      destruct (List.filter flag (seq 0 (df_len df))) as [|i l] eqn:E; [done|].
      assert (In i (List.filter flag (seq 0 (df_len df)))) as Hin
        by (rewrite E; by left).
      apply filter_In in Hin as [Hin Hf]. apply in_seq in Hin.
      destruct (Hnone i); [lia|by apply Hflag].
  - rewrite length_fmap.
    etrans; [apply filter_length|]. by rewrite length_seq.
Qed.

Lemma filter_true {A} (p : A → bool) l :
  (∀ x, In x l → p x = true) → List.filter p l = l.
Proof.
  induction l as [|x l IH]; [done|]. intros Hall. simpl.
  rewrite (Hall x) by by left. f_equal. apply IH. intros y Hy. apply Hall. by right.
Qed.

(** X25: on the table that create_excel_template builds, whose fields
    are all empty, _collect_sn_with_missing lists every SN, 1 to
    max(1, N), in order. *)
Theorem collect_sn_on_template num_sets container_name pack_mode :
  _collect_sn_with_missing (create_excel_template num_sets container_name)
    pack_mode
  = CInt <$> seqZ 1 (Z.max 1 num_sets).
Proof.
  unfold _collect_sn_with_missing. rewrite collect_foldl. cbn [app].
  rewrite create_excel_template_rows. cbv zeta.
  assert ((if (num_sets <=? 0)%Z then 1%Z else num_sets) = Z.max 1 num_sets)
    as -> by (destruct (Z.leb_spec num_sets 0); lia).
  set (n := Z.max 1 num_sets). rewrite !astype_str_replicate.
  set (df := (_ :: _) : DataFrame).
  assert (df_len df = Z.to_nat n) as ->
    by (unfold df, df_len; by rewrite length_fmap, length_seqZ).
  assert (df_col df "ID1" = Some (replicate (Z.to_nat n) (CStr ""))) as Hid
    by reflexivity.
  assert (df_col df "순번" = Some (CInt <$> seqZ 1 n)) as Hsn by reflexivity.
  rewrite filter_true.
  - apply list_eq. intros i. rewrite !list_lookup_fmap.
    destruct (decide (i < Z.to_nat n)) as [Hlt|Hge].
    + rewrite lookup_seq_lt by done. simpl.
      unfold df_at. rewrite Hsn. simpl. rewrite list_lookup_fmap.
      rewrite lookup_seqZ_lt by lia. simpl. do 2 f_equal. 
    + rewrite lookup_seq_ge by lia. by rewrite lookup_seqZ_ge by lia.
  - intros idx Hin%in_seq.
    destruct (String.eqb pack_mode "2PACK"); cbn [app existsb];
      unfold df_at at 1; rewrite Hid; simpl;
      by rewrite lookup_replicate_2 by lia.
Qed.

End ReportRows.

(** ** The dialog of the container name *)

Section Dialog.

Lemma ask_container_name_step round rounds :
  ask_container_name (round :: rounds)
  = if decisive round then Done (answer round) else ask_container_name rounds.
Proof.
  destruct round as [[ctn|] ans]; simpl; [|done].
  unfold answer. simpl. by destruct (Str.truthy (Text.strip ctn)), ans.
Qed.

(** X26: ask_container_name returns at the first round in which the
    user confirms a cancelled input or confirms a text that is not blank,
    and goes on asking until there is one; it returns the empty string
    for the cancelled input and otherwise the text stripped, which is not
    empty and has no whitespace at either end. *)
Theorem ask_container_name_spec rounds :
  ((∃ r, ask_container_name rounds = Done r) ↔
     Exists (λ round, decisive round = true) rounds)
  ∧ (Forall (λ round, decisive round = false) rounds →
     ask_container_name rounds = OutOfFuel)
  ∧ ∀ r, ask_container_name rounds = Done r →
      ∃ before round after,
        rounds = before ++ round :: after
        ∧ Forall (λ round, decisive round = false) before
        ∧ decisive round = true ∧ r = answer round
        ∧ Text.strip r = r
        ∧ (r = EmptyString ↔ round.1 = None).
Proof.
  induction rounds as [|round rounds (IHex & IHnone & IHr)].
  { split; [|split]; try done. split; [by intros [? ?]|by intros ?%Exists_nil]. }
  rewrite ask_container_name_step.
  destruct (decisive round) eqn:Hd.
  - split; [|split].
    + split; [by left|eauto].
    + intros Hall. apply Forall_cons in Hall as [Hf _]. congruence.
    + intros r [= <-]. exists [], round, rounds.
      split; [done|]. split; [constructor|]. split; [done|]. split; [done|].
      destruct round as [[ctn|] ans]; unfold answer; simpl in *.
      * split; [apply strip_text_idem|].
        apply andb_prop in Hd as [Ht _].
        split; [|done]. intros E. by rewrite E in Ht.
      * done.
  - split; [|split].
    + rewrite IHex. split; [by right|].
      intros Hex. apply Exists_cons in Hex as [?|?]; [congruence|done].
    + intros Hall. apply Forall_cons in Hall as [_ Hall]. by apply IHnone.
    + intros r Hr.
      destruct (IHr r Hr) as (before & round' & after & -> & Hb & Hrest).
      exists (round :: before), round', after.
      split; [done|]. split; [by constructor|done].
Qed.

End Dialog.

(** ** Worked instances *)


Example process_step2_example :
  process_step2 (Some demo_entries) (Some demo_sheet) 2 ∅ 6
  = Done (4, 0,
          [ ("IMG_1.png", "1.2511-NSH-2511-1076(NSH-2511-10762).png");
            ("IMG_2.JPG", "1.2511-NSH-2511-1076(NSH-2511-10762)-1.JPG");
            ("IMG_10.jpg", "2.2511-NSH-2511-1077(NSH-2511-10771).jpg");
            ("IMG_11.jpg", "2.2511-NSH-2511-1077(NSH-2511-10771)-1.jpg") ]).
Proof. by vm_compute. Qed.


Example process_step1_example :
  process_step1 (Some demo_entries) (Some demo_sheet) ∅ 6
  = Done (2, 2,
          [ ("IMG_1.png", "1.2511-NSH-2511-1076(NSH-2511-10762).png");
            ("IMG_2.JPG", "2.2511-NSH-2511-1077(NSH-2511-10771).JPG") ]).
Proof. by vm_compute. Qed.


Lemma rename_images_1pack_same_name_witness :
  let fs : gmap string nat :=
    {["1. 2511-NSH-2511-1076 (NSH-2511-10762).jpg" := 1; "IMG_2.jpg" := 2]} in
  ∃ fs', _rename_images fs
           ["1. 2511-NSH-2511-1076 (NSH-2511-10762).jpg"; "IMG_2.jpg"]
           1 "1PACK" demo_locals = Ok fs'
         ∧ fs' !! "1. 2511-NSH-2511-1076 (NSH-2511-10762).jpg" = None.
Proof.
  intros fs.
  exact (rename_images_1pack_same_name fs
           "1. 2511-NSH-2511-1076 (NSH-2511-10762).jpg" "IMG_2.jpg" 1
           demo_locals "1. 2511-NSH-2511-1076 (NSH-2511-10762)-1.jpg"
           eq_refl).
Defined.


Lemma aggregated_score_bounds_witness :
  (∀ i, ((demo_ocr i).2 <= 1)%Q)
  ∧ ∃ o, worker_set demo_ocr (7 # 10) ∅ "1PACK" 1 ["a.jpg"; "b.jpg"] = Ok o
         ∧ (0 <= current_avg_score o)%Q ∧ (current_avg_score o <= 1)%Q.
Proof.
  assert (∀ i, ((demo_ocr i).2 <= 1)%Q) as H
    by (intros i; unfold Qle; simpl; lia).
  split; [exact H|].
  exact (aggregated_score_bounds demo_ocr (7 # 10) ∅ "1PACK" 1 "a.jpg"
           ["b.jpg"] H).
Defined.

Lemma no_lot_implies_no_tag_witness :
  (∅ : gmap Z S1Row) !! 1%Z = None
  ∧ ∃ o, worker_set (λ _, ("no label", 9 # 10)) (7 # 10) ∅ "1PACK" 1
           ["a.jpg"; "b.jpg"] = Ok o
         ∧ (lot (final o) = "NO_LOT" →
            tag1 (final o) = "NO_TAG" ∧ id_val (final o) = EmptyString).
Proof.
  assert ((∅ : gmap Z S1Row) !! 1%Z = None) as H by reflexivity.
  split; [exact H|].
  exact (no_lot_implies_no_tag (λ _, ("no label", 9 # 10)) (7 # 10) ∅ "1PACK"
           1 "a.jpg" ["b.jpg"] H).
Defined.

Lemma natural_sort_key_ignores_case_witness :
  Str.lower "IMG_10.JPG" = Str.lower "img_10.jpg"
  ∧ _natural_sort_key "IMG_10.JPG" = _natural_sort_key "img_10.jpg"
  ∧ ∀ ka kb, _natural_sort_key "IMG_10.JPG" = Ok ka →
      _natural_sort_key "img_10.jpg" = Ok kb → key_lt ka kb = Ok false.
Proof.
  split; [reflexivity|].
  exact (natural_sort_key_ignores_case "IMG_10.JPG" "img_10.jpg" eq_refl).
Defined.

Lemma listers_agree_witness :
  Forall (λ name, Str.lower (Path.suffix name) ≠ ".gif"
                  ∧ Str.lower (Path.suffix name) ≠ ".webp") demo_entries
  ∧ core_list_images (Some demo_entries) = list_images demo_entries.
Proof.
  assert (Forall (λ name, Str.lower (Path.suffix name) ≠ ".gif"
                          ∧ Str.lower (Path.suffix name) ≠ ".webp")
            demo_entries) as H
    by (repeat (constructor; [split; discriminate|]); constructor).
  split; [exact H|]. exact (listers_agree demo_entries H).
Defined.

(** ** What a sanitized name never holds *)

Section SanitizeSafe.

Lemma collapse_Forall (Q : ascii → Prop) l :
  Q " "%char → Forall Q l →
  Forall (λ c, Q c ∧ (Str.is_space c = true → c = " "%char))
    (Chars.collapse_spaces l).
Proof.
  intros Hsp. induction 1 as [|c l Hc Hl IH]; [constructor|].
  cbn [Chars.collapse_spaces].
  destruct (Str.is_space c) eqn:Ec.
  - destruct l as [|c' l']; [by repeat constructor|].
    destruct (Str.is_space c'); [done|]. by constructor.
  - constructor; [|done]. split; [done|]. congruence.
Qed.

Lemma strip_head p c r l : Chars.strip p l = c :: r → p c = false.
Proof.
  intros E. apply (lstrip_head p c r). rewrite <- E. unfold Chars.strip.
  apply lstrip_rstrip, lstrip_idem.
Qed.

(** X27: whatever the name, sanitize returns at most 180 characters,
    none of them a forbidden filename character and none a whitespace
    other than the plain space, and the result does not start with a
    space or a dot. *)
Theorem sanitize_safe name :
  String.length (sanitize name) ≤ 180
  ∧ Forall (λ c, forbidden c = false ∧ (Str.is_space c = true → c = " "%char))
      (list_ascii_of_string (sanitize name))
  ∧ ∀ c r, sanitize name = String c r → c ≠ " "%char ∧ c ≠ "."%char.
Proof.
  unfold sanitize.
  rewrite <- length_list_ascii_of_string, list_ascii_of_string_of_list_ascii.
  unfold sanitize_chars, normalize_NFC.
  set (a2 := List.filter _ (Chars.strip Str.is_space (list_ascii_of_string name))).
  set (a3 := List.map (λ c, if forbidden c then "_"%char else c) a2).
  set (p := λ c, Ascii.eqb c " " || Ascii.eqb c ".").
  split; [rewrite length_take; lia|]. split.
  - apply Forall_take, strip_Forall.
    apply (collapse_Forall (λ c, forbidden c = false)); [done|].
    unfold a3. apply List.Forall_forall. intros c Hin.
    apply in_map_iff in Hin as (x & <- & _).
    by destruct (forbidden x) eqn:Hx.
  - intros c r E.
    apply (f_equal list_ascii_of_string) in E.
    rewrite list_ascii_of_string_of_list_ascii in E. cbn [list_ascii_of_string] in E.
    destruct (Chars.strip p (Chars.collapse_spaces a3)) as [|c' r'] eqn:Es;
      [done|].
    injection E as -> _. apply strip_head in Es. unfold p in Es.
    apply orb_false_elim in Es as [E1 E2].
    by apply Ascii.eqb_neq in E1, E2.
Qed.

End SanitizeSafe.

(** ** The names of a 1PACK set, from the texts to the files *)

Section OnePack.

(** X28: generate_names_1pack never raises and reads the first text
    only (a missing text counts as empty); its two names differ. For
    images with the suffix .jpg and a row that holds the fields it
    extracted, the names _rename_images gives the files are its names
    behind the SN prefix. *)
Theorem generate_names_1pack_spec ocr_texts :
  ∃ name1 name2 i l t,
    generate_names_1pack ocr_texts = Ok (name1, name2, i, l, t)
    ∧ extract_id_lot_tag (default EmptyString (head ocr_texts)) = Ok (i, l, t)
    ∧ name1 ≠ name2
    ∧ ∀ sn p0 p1 st,
        Path.suffix p0 = ".jpg" → Path.suffix p1 = ".jpg" →
        id_val st = i → lot st = l → tag1 st = t →
        new_names "1PACK" [p0; p1] sn st
        = Ok [Str.of_Z sn +:+ ". " +:+ name1; Str.of_Z sn +:+ ". " +:+ name2].
Proof.
  destruct (extract_id_lot_tag_total (default EmptyString (head ocr_texts)))
    as (i & l & t & E).
  assert (text_at ocr_texts 0 = Ok (default EmptyString (head ocr_texts))) as Et
    by by destruct ocr_texts.
  unfold generate_names_1pack. rewrite Et. simpl. rewrite E. simpl.
  eexists _, _, i, l, t. split; [reflexivity|]. split; [done|]. split.
  - intros H. rewrite !append_assoc in H. do 5 apply append_inj_l in H.
    discriminate.
  - intros sn p0 p1 st E0 E1 <- <- <-.
    unfold new_names. simpl. rewrite E0, E1.
    by rewrite !append_assoc.
Qed.

End OnePack.
